(** * ProgressionBuilder: chord slots, prompt construction and response validation

    A shallow embedding of [src/progressionbuilder.ts].

    - JavaScript strings are sequences of UTF-16 code units: [list char]
      with [char := N].
    - [String.prototype.match] is modelled by a backtracking matcher in
      continuation-passing style over a regular-expression syntax tree,
      following the matcher semantics of ECMAScript (leftmost match,
      alternatives left to right, greedy and lazy quantifiers, the
      empty-iteration check of quantifiers).
    - [JSON.parse] is modelled by a recursive-descent parser over code units.
    - A method of [ProgressionBuilder] is a function from the progression to
      an outcome and the progression it leaves behind, so that what a thrown
      error does to the state is explicit.
    - A position is a JavaScript number: an integer, a fraction, [NaN] or
      an infinity ([jsnum]), with the comparisons of [validatePosition],
      the truncation of [splice] and the property key of an assignment
      written out for each. The array of slots is a
      [list (option (list char))], [None] for [null]. *)

From Stdlib Require Import String Ascii DecimalString NArith ZArith Bool Lia.
From stdpp Require Import base numbers list.

Local Open Scope N_scope.

(** ** Code units and string literals *)

Abbreviation char := N (only parsing).

Definition ch (a : ascii) : char := N_of_ascii a.

Definition codes (s : string) : list char := map ch (list_ascii_of_string s).

(** ** Regular expressions *)

Module Regex.

(** One item of a character class. [CSpace] is [\s], [CNonSpace] is [\S],
    [CDigit] is [\d]. *)
Inductive cls_item : Type :=
  | CChar (c : char)
  | CRange (lo hi : char)
  | CSpace
  | CNonSpace
  | CDigit.

Inductive regex : Type :=
  | Eps
  | Bol
  | Eol
  | Cls (items : list cls_item)
  | Seq (r1 r2 : regex)
  | Alt (r1 r2 : regex)
  | Star (greedy : bool) (r : regex)
  | Opt (r : regex).

(** [\s]: WhiteSpace and LineTerminator code points of ECMAScript. *)
Definition is_space (c : char) : bool :=
  (c =? 9) || (c =? 10) || (c =? 11) || (c =? 12) || (c =? 13) || (c =? 32)
  || (c =? 160) || (c =? 5760) || ((8192 <=? c) && (c <=? 8202))
  || (c =? 8232) || (c =? 8233) || (c =? 8239) || (c =? 8287)
  || (c =? 12288) || (c =? 65279).

Definition is_digit (c : char) : bool := (48 <=? c) && (c <=? 57).

Definition item_mem (i : cls_item) (c : char) : bool :=
  match i with
  | CChar x => c =? x
  | CRange lo hi => (lo <=? c) && (c <=? hi)
  | CSpace => is_space c
  | CNonSpace => negb (is_space c)
  | CDigit => is_digit c
  end.

Definition cls_mem (items : list cls_item) (c : char) : bool :=
  existsb (fun i => item_mem i c) items.

Section Matcher.
Context {A : Type}.

(** Length of the whole input, for [^]. *)
Variable total : nat.

(** The repeat matcher of [r*] (greedy) and [r*?] (lazy). An iteration
    that consumes nothing is rejected. An iteration consumes at
    least one code unit, so [length s] iterations always suffice and the
    loop is started with that much fuel: at fuel [0] the input is empty
    and only the continuation is left. *)
Fixpoint star_loop (greedy : bool)
    (body : (list char -> option A) -> list char -> option A)
    (k : list char -> option A) (fuel : nat) (s : list char) : option A :=
  match fuel with
  | O => k s
  | S n =>
      let again s' :=
        if (length s' <? length s)%nat then star_loop greedy body k n s'
        else None in
      if greedy then
        match body again s with
        | Some x => Some x
        | None => k s
        end
      else
        match k s with
        | Some x => Some x
        | None => body again s
        end
  end.

Fixpoint run (r : regex) (k : list char -> option A) (s : list char)
    {struct r} : option A :=
  match r with
  | Eps => k s
  | Bol => if (length s =? total)%nat then k s else None
  | Eol => match s with [] => k s | _ :: _ => None end
  | Cls items =>
      match s with
      | c :: s' => if cls_mem items c then k s' else None
      | [] => None
      end
  | Seq r1 r2 => run r1 (run r2 k) s
  | Alt r1 r2 =>
      match run r1 k s with
      | Some x => Some x
      | None => run r2 k s
      end
  | Star greedy r' => star_loop greedy (run r') k (length s) s
  | Opt r' =>
      match run r' (fun s' => if (length s' <? length s)%nat then k s'
                              else None) s with
      | Some x => Some x
      | None => k s
      end
  end.
End Matcher.

(** The match attempted at the current position: the rest of the input
    after the match. *)
Definition match_here (total : nat) (r : regex) (s : list char)
    : option (list char) :=
  run total r Some s.

(** Start positions are tried from left to right; the result is the matched
    substring ([match[0]]). *)
Fixpoint search (total : nat) (r : regex) (s : list char)
    : option (list char) :=
  match match_here total r s with
  | Some rest => Some (take (length s - length rest)%nat s)
  | None =>
      match s with
      | [] => None
      | _ :: s' => search total r s'
      end
  end.

(** [s.match(r)] for a regular expression without the [g] flag: [None] is
    [null], [Some m] is a match whose element 0 is [m]. *)
Definition regex_match (r : regex) (s : list char) : option (list char) :=
  search (length s) r s.

Definition chr (a : ascii) : regex := Cls [CChar (ch a)].

Definition lit (s : string) : regex :=
  foldr (fun a r => Seq (chr a) r) Eps (list_ascii_of_string s).

Definition Plus (r : regex) : regex := Seq r (Star true r).

End Regex.

Import Regex.

Infix ">>" := Seq (at level 60, right associativity).
Infix "<|>" := Alt (at level 65, right associativity).

(** ** The constants of the module *)

Definition NUM_SUGGESTIONS : nat := 12.

Definition digits : regex := Plus (Cls [CDigit]).

Definition note : regex :=
  Cls [CRange (ch "A") (ch "G")] >> Opt (Cls [CChar (ch "#"); CChar (ch "b")]).

Definition quality : regex :=
  (lit "maj" >> Opt (chr "7")) <|> (lit "M" >> Opt (chr "7"))
  <|> (lit "min" >> Opt (chr "7")) <|> (lit "m" >> Opt (chr "7"))
  <|> (lit "dim" >> Opt (chr "7")) <|> (lit "aug" >> Opt (chr "7")).

Definition modifier : regex :=
  (lit "sus" >> digits) <|> (lit "add" >> digits)
  <|> (lit "b" >> digits) <|> (lit "#" >> digits).

(** The chord pattern, piece by piece as in the source:
    [^], the root [([A-G][#b]?)], the optional quality
    [(?:maj7?|M7?|min7?|m7?|dim7?|aug7?)?], the optional extension [(\d+)?],
    the optional group holding the starred modifiers
    [(?:sus\d+|add\d+|b\d+|#\d+)], the optional bass [(\/[A-G][#b]?)?]
    and [$]. The capture groups are never read and there is no
    back-reference, so groups are transparent. *)
Definition CHORD_PATTERN : regex :=
  Bol >> note >> Opt quality >> Opt digits >> Opt (Star true modifier)
  >> Opt (chr "/" >> note) >> Eol.

Definition ws : regex := Star true (Cls [CSpace]).

Definition OPENING : regex :=
  chr "{" >> ws >> Cls [CChar 34] >> lit "chordSuggestions" >> Cls [CChar 34]
  >> ws >> chr ":" >> ws >> chr "[".

Definition CLOSING : regex := chr "]" >> ws >> chr "}".

(** [/\{\s*"chordSuggestions"\s*:\s*\[[\s\S]*?\]\s*\}/] *)
Definition RESPONSE_PATTERN : regex :=
  OPENING >> Star false (Cls [CSpace; CNonSpace]) >> CLOSING.

(** ** JSON *)

Module Json.

(** The mathematical value of a number literal:
    [(-1)^num_neg * num_mant * 10^num_exp]. *)
Record number : Type := { num_neg : bool; num_mant : N; num_exp : Z }.

#[warnings="-register-all"]
Inductive json : Type :=
  | JNull
  | JBool (b : bool)
  | JNum (n : number)
  | JStr (s : list char)
  | JArr (elements : list json)
  | JObj (members : list (list char * json)).

(** Outcome of a parsing function: a value and the rest of the input, a
    syntax error, or no fuel left. *)
Inductive presult (A : Type) : Type :=
  | POk (a : A) (rest : list char)
  | PSyntax
  | PFuel.
Arguments POk {A} a rest.
Arguments PSyntax {A}.
Arguments PFuel {A}.

Definition is_json_ws (c : char) : bool :=
  (c =? 9) || (c =? 10) || (c =? 13) || (c =? 32).

Fixpoint skip_ws (s : list char) : list char :=
  match s with
  | c :: s' => if is_json_ws c then skip_ws s' else s
  | [] => []
  end.

Definition hex_digit (c : char) : option N :=
  if is_digit c then Some (c - 48)
  else if (ch "a" <=? c) && (c <=? ch "f") then Some (c - 87)
  else if (ch "A" <=? c) && (c <=? ch "F") then Some (c - 55)
  else None.

Definition hex4 (h1 h2 h3 h4 : char) : option char :=
  match hex_digit h1, hex_digit h2, hex_digit h3, hex_digit h4 with
  | Some a, Some b, Some c, Some d => Some (((a * 16 + b) * 16 + c) * 16 + d)
  | _, _, _, _ => None
  end.

Definition simple_escape (c : char) : option char :=
  if c =? 34 then Some 34
  else if c =? ch "\" then Some (ch "\")
  else if c =? ch "/" then Some (ch "/")
  else if c =? ch "b" then Some 8
  else if c =? ch "f" then Some 12
  else if c =? ch "n" then Some 10
  else if c =? ch "r" then Some 13
  else if c =? ch "t" then Some 9
  else None.

Definition push (u : char) (r : option (list char * list char))
    : option (list char * list char) :=
  match r with
  | Some (cs, rest) => Some (u :: cs, rest)
  | None => None
  end.

(** The characters of a string literal after its opening quote, up to and
    including the closing quote. *)
Fixpoint parse_chars (s : list char) : option (list char * list char) :=
  match s with
  | [] => None
  | c :: s1 =>
      if c =? 34 then Some ([], s1)
      else if c =? ch "\" then
        match s1 with
        | [] => None
        | e :: s2 =>
            if e =? ch "u" then
              match s2 with
              | h1 :: h2 :: h3 :: h4 :: s3 =>
                  match hex4 h1 h2 h3 h4 with
                  | Some u => push u (parse_chars s3)
                  | None => None
                  end
              | _ => None
              end
            else
              match simple_escape e with
              | Some u => push u (parse_chars s2)
              | None => None
              end
        end
      else if c <? 32 then None
      else push c (parse_chars s1)
  end.

Fixpoint span_digits (s : list char) : list char * list char :=
  match s with
  | c :: s' =>
      if is_digit c then let '(d, r) := span_digits s' in (c :: d, r)
      else ([], s)
  | [] => ([], [])
  end.

Definition digits_value (d : list char) : N :=
  fold_left (fun acc c => 10 * acc + (c - 48)) d 0.

Definition parse_fraction (s : list char) : option (list char * list char) :=
  match s with
  | c :: s1 =>
      if c =? ch "." then
        match span_digits s1 with
        | ([], _) => None
        | (d, r) => Some (d, r)
        end
      else Some ([], s)
  | [] => Some ([], s)
  end.

Definition parse_exponent (s : list char) : option (Z * list char) :=
  match s with
  | c :: s1 =>
      if (c =? ch "e") || (c =? ch "E") then
        let '(sgn, s2) :=
          match s1 with
          | c' :: s' =>
              if c' =? ch "+" then (1%Z, s')
              else if c' =? ch "-" then ((-1)%Z, s')
              else (1%Z, s1)
          | [] => (1%Z, s1)
          end in
        match span_digits s2 with
        | ([], _) => None
        | (d, r) => Some ((sgn * Z.of_N (digits_value d))%Z, r)
        end
      else Some (0%Z, s)
  | [] => Some (0%Z, s)
  end.

(** A number literal: an optional minus sign; [0], or a digit [1-9] and any
    digits; an optional fraction; an optional exponent. *)
Definition parse_number (s : list char) : option (number * list char) :=
  let '(neg, s1) :=
    match s with
    | c :: s' => if c =? ch "-" then (true, s') else (false, s)
    | [] => (false, s)
    end in
  match s1 with
  | [] => None
  | c :: s2 =>
      if is_digit c then
        let '(int_digits, s3) :=
          if c =? ch "0" then ([c], s2)
          else let '(d, r) := span_digits s2 in (c :: d, r) in
        match parse_fraction s3 with
        | None => None
        | Some (frac, s4) =>
            match parse_exponent s4 with
            | None => None
            | Some (e, s5) =>
                Some ({| num_neg := neg;
                         num_mant := digits_value (int_digits ++ frac);
                         num_exp := (e - Z.of_nat (length frac))%Z |}, s5)
            end
        end
      else None
  end.

Fixpoint strip_prefix (p s : list char) : option (list char) :=
  match p with
  | [] => Some s
  | a :: p' =>
      match s with
      | c :: s' => if c =? a then strip_prefix p' s' else None
      | [] => None
      end
  end.

Definition parse_literal (s : list char) : presult json :=
  match strip_prefix (codes "true") s with
  | Some r => POk (JBool true) r
  | None =>
      match strip_prefix (codes "false") s with
      | Some r => POk (JBool false) r
      | None =>
          match strip_prefix (codes "null") s with
          | Some r => POk JNull r
          | None =>
              match parse_number s with
              | Some (n, r) => POk (JNum n) r
              | None => PSyntax
              end
          end
      end
  end.

(** A value starts at the head of [s] (the caller has skipped the white
    space before it). Every call passes on one unit of fuel less;
    [JSON_parse] starts with enough of it for any input. *)
Fixpoint parse_value (fuel : nat) (s : list char) : presult json :=
  match fuel with
  | O => PFuel
  | S n =>
      match s with
      | [] => PSyntax
      | c :: s1 =>
          if c =? ch "{" then
            match skip_ws s1 with
            | c' :: s2 =>
                if c' =? ch "}" then POk (JObj []) s2
                else
                  match parse_members n (c' :: s2) with
                  | POk ms r => POk (JObj ms) r
                  | PSyntax => PSyntax
                  | PFuel => PFuel
                  end
            | [] => PSyntax
            end
          else if c =? ch "[" then
            match skip_ws s1 with
            | c' :: s2 =>
                if c' =? ch "]" then POk (JArr []) s2
                else
                  match parse_elements n (c' :: s2) with
                  | POk vs r => POk (JArr vs) r
                  | PSyntax => PSyntax
                  | PFuel => PFuel
                  end
            | [] => PSyntax
            end
          else if c =? 34 then
            match parse_chars s1 with
            | Some (str, r) => POk (JStr str) r
            | None => PSyntax
            end
          else parse_literal s
      end
  end

with parse_elements (fuel : nat) (s : list char) : presult (list json) :=
  match fuel with
  | O => PFuel
  | S n =>
      match parse_value n s with
      | POk v r =>
          match skip_ws r with
          | c :: r1 =>
              if c =? ch "," then
                match parse_elements n (skip_ws r1) with
                | POk vs r2 => POk (v :: vs) r2
                | PSyntax => PSyntax
                | PFuel => PFuel
                end
              else if c =? ch "]" then POk [v] r1
              else PSyntax
          | [] => PSyntax
          end
      | PSyntax => PSyntax
      | PFuel => PFuel
      end
  end

with parse_members (fuel : nat) (s : list char)
    : presult (list (list char * json)) :=
  match fuel with
  | O => PFuel
  | S n =>
      match s with
      | c :: s1 =>
          if c =? 34 then
            match parse_chars s1 with
            | Some (key, r) =>
                match skip_ws r with
                | c1 :: r1 =>
                    if c1 =? ch ":" then
                      match parse_value n (skip_ws r1) with
                      | POk v r2 =>
                          match skip_ws r2 with
                          | c2 :: r3 =>
                              if c2 =? ch "," then
                                match parse_members n (skip_ws r3) with
                                | POk ms r4 => POk ((key, v) :: ms) r4
                                | PSyntax => PSyntax
                                | PFuel => PFuel
                                end
                              else if c2 =? ch "}" then POk [(key, v)] r3
                              else PSyntax
                          | [] => PSyntax
                          end
                      | PSyntax => PSyntax
                      | PFuel => PFuel
                      end
                    else PSyntax
                | [] => PSyntax
                end
            | None => PSyntax
            end
          else PSyntax
      | [] => PSyntax
      end
  end.

(** [JSON.parse]: one value between optional white space; [None] is a
    thrown [SyntaxError]. *)
Definition JSON_parse (s : list char) : option json :=
  match parse_value (2 * length s + 2) (skip_ws s) with
  | POk v r =>
      match skip_ws r with
      | [] => Some v
      | _ :: _ => None
      end
  | PSyntax => None
  | PFuel => None
  end.

(** The own property [key] of an object built by [JSON.parse]: when a key
    occurs more than once, the last occurrence wins. *)
Fixpoint lookup_member (key : list char) (ms : list (list char * json))
    : option json :=
  match ms with
  | [] => None
  | (k, v) :: ms' =>
      match lookup_member key ms' with
      | Some v' => Some v'
      | None => if decide (k = key) then Some v else None
      end
  end.

(** Whether a number literal denotes the Number [12]: JSON.parse rounds the
    mathematical value to the nearest double, ties to even. The doubles next
    to 12 are [12 - 2^-49] and [12 + 2^-49] and the significand of 12 is
    even, so exactly the values within [2^-50] of 12 become 12. *)
Definition number_is_12 (n : number) : bool :=
  negb (num_neg n) &&
  (if (0 <=? num_exp n)%Z
   then (Z.of_N (num_mant n) * 10 ^ num_exp n =? 12)%Z
   else
     let d := (10 ^ (- num_exp n))%Z in
     (Z.abs (Z.of_N (num_mant n) - 12 * d) * 2 ^ 50 <=? d)%Z).

End Json.

Import Json.

(** ** Numbers *)

(** A JavaScript number as far as a position is used: it is compared with
    an integer, truncated to an integer, used as a property key of the
    array and printed. [Int z] is the integer [z] (the negative zero reads
    as [0] in all four uses); [Fraction below shown] is a finite number
    that lies strictly between the integers [below] and [below + 1] and
    prints as [shown]. *)
Inductive jsnum : Type :=
  | Int (z : Z)
  | Fraction (below : Z) (shown : list char)
  | NaN
  | Infinity (negative : bool).

Coercion Int : Z >-> jsnum.
Bind Scope Z_scope with jsnum.

(** [n < k] and [n >= k] for an integer [k]; both are false for [NaN]. *)
Definition less_than (n : jsnum) (k : Z) : bool :=
  match n with
  | Int z => (z <? k)%Z
  | Fraction below _ => (below <? k)%Z
  | NaN => false
  | Infinity negative => negative
  end.

Definition at_least (n : jsnum) (k : Z) : bool :=
  match n with
  | Int z => (z >=? k)%Z
  | Fraction below _ => (below >=? k)%Z
  | NaN => false
  | Infinity negative => negb negative
  end.

(** The integer that a finite number or [NaN] is truncated to
    ([ToIntegerOrInfinity]): towards zero, and [0] for [NaN]. *)
Definition truncate (n : jsnum) : Z :=
  match n with
  | Int z => z
  | Fraction below _ => if (below <? 0)%Z then (below + 1)%Z else below
  | NaN | Infinity _ => 0%Z
  end.

(** ** Errors and outcomes *)

(** A JavaScript value as far as the validation reads one: [undefined], the
    [length] of an array or of a string, or a value built by [JSON.parse]. *)
Inductive value : Type :=
  | VUndefined
  | VLength (n : nat)
  | VJson (j : json).

(** What is thrown. The first four are the [Error]s of the module, with
    what their message cites:
    [Invalid position: <position>. Must be between 0 and <upper>],
    [Invalid JSON response format],
    [Invalid number of chord suggestions: <len>] and
    [Invalid chord suggestion: <chord>]. [SyntaxError] is thrown by
    [JSON.parse], [TypeError] by the runtime (a property of [null] or
    [undefined], a call of something that is no function, an iteration over
    something that is not iterable), [External] by the language-model
    client. *)
Inductive error : Type :=
  | InvalidPosition (position : jsnum) (upper : Z)
  | InvalidFormat
  | InvalidCount (len : value)
  | InvalidChord (chord : list char)
  | SyntaxError
  | TypeError
  | External (message : list char).

Inductive outcome (A : Type) : Type :=
  | Returns (a : A)
  | Throws (e : error).
Arguments Returns {A} a.
Arguments Throws {A} e.

(** The errors that reject the response of the language model. *)
Definition is_invalid_response (e : error) : bool :=
  match e with
  | InvalidFormat | InvalidCount _ | InvalidChord _ | SyntaxError
  | TypeError => true
  | InvalidPosition _ _ | External _ => false
  end.

(** ** The progression and the methods of the builder *)

Abbreviation Chord := (option (list char)) (only parsing).

Record Progression : Type := { key : list char; chords : list Chord }.

(** A method runs on the progression of the builder and yields an outcome
    and the progression after the call. *)
Definition method (A : Type) : Type := Progression -> outcome A * Progression.

Definition ret {A} (a : A) : method A := fun p => (Returns a, p).

Definition throw {A} (e : error) : method A := fun p => (Throws e, p).

Definition bind {A B} (m : method A) (f : A -> method B) : method B :=
  fun p =>
    match m p with
    | (Returns a, p') => f a p'
    | (Throws e, p') => (Throws e, p')
    end.

Definition get_chords : method (list Chord) := fun p => (Returns (chords p), p).

Definition set_key (k : list char) : method unit :=
  fun p => (Returns tt, {| key := k; chords := chords p |}).

Definition set_chords (l : list Chord) : method unit :=
  fun p => (Returns tt, {| key := key p; chords := l |}).

Notation "x <- m ;; f" := (bind m (fun x => f))
  (at level 100, m at next level, right associativity).
Notation "m ;;; f" := (bind m (fun _ => f))
  (at level 100, right associativity).

(** [Array.prototype.push] *)
Definition push_back {A} (x : A) (l : list A) : list A := l ++ [x].

(** [Array.prototype.splice(start, deleteCount, ...items)] for a number
    [start] and an integer [deleteCount]: [start] is truncated, a negative
    one counts from the end, and both arguments are clamped to the array. *)
Definition splice {A} (start : jsnum) (deleteCount : Z) (items : list A)
    (l : list A) : list A :=
  let len := Z.of_nat (length l) in
  let from :=
    match start with
    | Infinity true => 0%Z
    | Infinity false => len
    | Int _ | Fraction _ _ | NaN =>
        if (truncate start <? 0)%Z then Z.max (len + truncate start) 0
        else Z.min (truncate start) len
    end in
  let count := Z.min (Z.max deleteCount 0) (len - from) in
  take (Z.to_nat from) l ++ items ++ drop (Z.to_nat (from + count)) l.

(** [a[position] = x]. For an integer [position] within the array the
    element is replaced. At or past the end JavaScript grows the array and
    leaves holes before the new element (shown here as empty slots). A
    negative integer and a number that is no integer ([NaN] and a fraction
    among them) name a property of the array object that is no element:
    the elements stay as they are. After [validatePosition] an integer
    position is within the array. *)
Definition assign {A} (hole : A) (position : jsnum) (x : A) (l : list A)
    : list A :=
  match position with
  | Int z =>
      if (z <? 0)%Z then l
      else if (z <? Z.of_nat (length l))%Z
           then <[Z.to_nat z := x]> l
           else l ++ replicate (Z.to_nat z - length l) hole ++ [x]
  | Fraction _ _ | NaN | Infinity _ => l
  end.

Definition DEFAULT_KEY : list char := codes "C major".

(** [new ProgressionBuilder(key)]; the argument is optional. *)
Definition constructor (k : option (list char)) : Progression :=
  {| key := match k with Some k' => k' | None => DEFAULT_KEY end;
     chords := [] |}.

Definition setKey (k : list char) : method unit := set_key k.

Definition validatePosition (position : jsnum) : method unit :=
  l <- get_chords ;;
  if less_than position 0 || at_least position (Z.of_nat (length l))
  then throw (InvalidPosition position (Z.of_nat (length l) - 1))
  else ret tt.

Definition addSlot (position : option jsnum) : method unit :=
  match position with
  | None => l <- get_chords ;; set_chords (push_back None l)
  | Some pos =>
      validatePosition pos ;;;
      l <- get_chords ;; set_chords (splice pos 0 [None] l)
  end.

Definition addChord (position : jsnum) (chord : list char) : method unit :=
  validatePosition position ;;;
  l <- get_chords ;; set_chords (assign None position (Some chord) l).

Definition removeSlot (position : jsnum) : method unit :=
  validatePosition position ;;;
  l <- get_chords ;; set_chords (splice position 1 [] l).

Definition removeChord (position : jsnum) : method unit :=
  validatePosition position ;;;
  l <- get_chords ;; set_chords (assign None position None l).

(** ** The prompt *)

(** A string literal of the source in which ['] stands for the double
    quote. *)
Definition js (s : string) : list char :=
  map (fun c => if c =? 39 then 34 else c) (codes s).

(** [`${chords}`]: [Array.prototype.toString] joins the elements with
    commas; [null] gives the empty string. *)
Fixpoint join_chords (l : list Chord) : list char :=
  match l with
  | [] => []
  | [c] => default [] c
  | c :: l' => default [] c ++ ch "," :: join_chords l'
  end.

(** An integer in decimal digits, as a template prints it (numbers from
    [10^21] on print with an exponent; a position that gets to the prompt
    is below the length of an array). *)
Definition show_Z (z : Z) : list char :=
  codes (DecimalString.NilZero.string_of_int (Z.to_int z)).

(** [`${position}`] *)
Definition show_number (n : jsnum) : list char :=
  match n with
  | Int z => show_Z z
  | Fraction _ shown => shown
  | NaN => codes "NaN"
  | Infinity false => codes "Infinity"
  | Infinity true => codes "-Infinity"
  end.

Definition PROMPT_HEAD : list char :=
  js "
You are an expert harmony assistant specializing in Western tonal music (pop, rock, folk, and classical).
Your task is to suggest chords that fit harmonically within a given chord progression and key. Focus on common, simple chords rather than complex or extended jazz chords.

INPUT INFORMATION:
Key: ".

Definition PROMPT_PROGRESSION : list char :=
  js "
Progression: ".

Definition PROMPT_POSITION : list char :=
  js "
Position: ".

Definition PROMPT_RULES : list char :=
  js "

The chord progression is written using standard music notation (e.g., 'C', 'Am', 'F', 'G', or null if a slot is empty).
Positions in the chord progression are zero-indexed. Position 0 is the first chord, position 1 is the second chord, etc.
The key defines the tonal center for the harmonic context.  
There may be multiple empty slots (null values) in the progression.  
The chord at the specified Position may or may not already be filled ".

Definition PROMPT_TASK : list char :=
  js " provide suggestions anyway, ignoring the current chord at that position.

YOUR TASK:
Return ".

Definition PROMPT_GUIDELINES : list char :=
  js " musically coherent chord suggestions, ordered from most to least preferred for that position in this progression and key.

GUIDELINES:
- Output must be a JSON object.
- Use standard chord notation: 'Cmaj7', 'Am7b5', 'E7', 'F#dim', 'G9', etc.
- Each chord should make sense in the context of the given key and surrounding chords.
- You may include both diatonic chords (from the key) and non-diatonic chords (e.g. secondary dominants, borrowed chords, tritone substitutions).
- The ordering should reflect musical likelihood or smoothness of progression (voice leading and harmonic function).
- Avoid duplicates and overly complex symbols (e.g. 'C13#11b9').
- Assume 12 semitone equal temperament and common Western harmony.

OUTPUT FORMAT:
{
    'chordSuggestions': ['list of ".

Definition PROMPT_TAIL : list char :=
  js " chords in standard music notation']
}
Output only valid JSON, no extra text, no markdown, no trailing commas.
".

Definition createSuggestionPrompt (progression : Progression)
    (position : jsnum) : list char :=
  PROMPT_HEAD ++ key progression
  ++ PROMPT_PROGRESSION ++ join_chords (chords progression)
  ++ PROMPT_POSITION ++ show_number position
  ++ PROMPT_RULES ++ [8212] ++ PROMPT_TASK
  ++ show_Z (Z.of_nat NUM_SUGGESTIONS)
  ++ PROMPT_GUIDELINES ++ show_Z (Z.of_nat NUM_SUGGESTIONS) ++ PROMPT_TAIL.

(** ** Response validation *)

(** [v.chordSuggestions] and [v.length] on a value built by [JSON.parse]. *)
Definition get_chordSuggestions (v : json) : outcome value :=
  match v with
  | JNull => Throws TypeError
  | JObj ms =>
      Returns (match lookup_member (codes "chordSuggestions") ms with
               | Some x => VJson x
               | None => VUndefined
               end)
  | JBool _ | JNum _ | JStr _ | JArr _ => Returns VUndefined
  end.

Definition get_length (v : value) : outcome value :=
  match v with
  | VUndefined | VJson JNull => Throws TypeError
  | VLength _ | VJson (JBool _) | VJson (JNum _) => Returns VUndefined
  | VJson (JStr s) => Returns (VLength (length s))
  | VJson (JArr l) => Returns (VLength (length l))
  | VJson (JObj ms) =>
      Returns (match lookup_member (codes "length") ms with
               | Some x => VJson x
               | None => VUndefined
               end)
  end.

(** [v !== NUM_SUGGESTIONS] *)
Definition differs_from_NUM_SUGGESTIONS (v : value) : bool :=
  match v with
  | VLength n => negb (n =? NUM_SUGGESTIONS)%nat
  | VJson (JNum x) => negb (number_is_12 x)
  | _ => true
  end.

Definition is_high_surrogate (c : char) : bool := (55296 <=? c) && (c <=? 56319).
Definition is_low_surrogate (c : char) : bool := (56320 <=? c) && (c <=? 57343).

(** The iteration of a string goes by code points: a surrogate pair is one
    element. *)
Fixpoint code_points (s : list char) : list (list char) :=
  match s with
  | [] => []
  | c1 :: s1 =>
      match s1 with
      | c2 :: s2 =>
          if is_high_surrogate c1 && is_low_surrogate c2
          then [c1; c2] :: code_points s2
          else [c1] :: code_points s1
      | [] => [[c1]]
      end
  end.

(** The elements that [for (const chord of v)] goes through. *)
Definition iterate (v : value) : outcome (list json) :=
  match v with
  | VJson (JArr l) => Returns l
  | VJson (JStr s) => Returns (map JStr (code_points s))
  | _ => Throws TypeError
  end.

(** The loop over the suggestions: the first element that does not match
    throws. [chord.match] is a function only when [chord] is a string. *)
Fixpoint check_chords (l : list json) : outcome unit :=
  match l with
  | [] => Returns tt
  | JStr chord :: l' =>
      match regex_match CHORD_PATTERN chord with
      | Some _ => check_chords l'
      | None => Throws (InvalidChord chord)
      end
  | _ :: _ => Throws TypeError
  end.

Definition parseChordSuggestions (text : list char) : outcome value :=
  match regex_match RESPONSE_PATTERN text with
  | None => Throws InvalidFormat
  | Some m0 =>
      match JSON_parse m0 with
      | None => Throws SyntaxError
      | Some parsed =>
          match get_chordSuggestions parsed with
          | Throws e => Throws e
          | Returns chordSuggestions =>
              match get_length chordSuggestions with
              | Throws e => Throws e
              | Returns len =>
                  if differs_from_NUM_SUGGESTIONS len
                  then Throws (InvalidCount len)
                  else
                    match iterate chordSuggestions with
                    | Throws e => Throws e
                    | Returns l =>
                        match check_chords l with
                        | Throws e => Throws e
                        | Returns _ => Returns chordSuggestions
                        end
                    end
              end
          end
      end
  end.

Section Suggest.
(** The client of the language model, [llm.executeLLM]: a prompt gives a
    text or throws. *)
Variable executeLLM : list char -> outcome (list char).

(** The [catch] block logs the error and throws it again. *)
Definition suggestChords (position : jsnum) : method value :=
  validatePosition position ;;;
  fun p =>
    let prompt := createSuggestionPrompt p position in
    match executeLLM prompt with
    | Throws e => (Throws e, p)
    | Returns text => (parseChordSuggestions text, p)
    end.
End Suggest.

(** ** Well-formed responses *)

(** Whether a string is a chord symbol of [CHORD_PATTERN]. *)
Definition conforms (chord : list char) : bool :=
  match regex_match CHORD_PATTERN chord with
  | Some _ => true
  | None => false
  end.

(** An element of the array as it is written in the response: a string
    literal with white space around it. [written] is the text between the
    double quotes, [symbol] the chord symbol that it denotes. *)
Record item : Type :=
  { pre : list char;
    written : list char;
    symbol : list char;
    post : list char }.

(** The white space between the tokens of the object. *)
Record layout : Type :=
  { after_brace : list char;
    after_key : list char;
    after_colon : list char;
    in_empty : list char;
    before_brace : list char }.

Definition quoted (s rest : list char) : list char := 34 :: s ++ 34 :: rest.

Fixpoint render_items (l : list item) (rest : list char) : list char :=
  match l with
  | [] => rest
  | [i] => pre i ++ quoted (written i) (post i ++ rest)
  | i :: l' =>
      pre i ++ quoted (written i) (post i ++ ch "," :: render_items l' rest)
  end.

Definition render_array (L : layout) (l : list item) (rest : list char)
    : list char :=
  ch "[" ::
    match l with
    | [] => in_empty L ++ ch "]" :: rest
    | _ :: _ => render_items l (ch "]" :: rest)
    end.

(** The text of the object [{"chordSuggestions":[c1, ..., cn]}], followed
    by [rest]. *)
Definition render_then (L : layout) (l : list item) (rest : list char)
    : list char :=
  ch "{" :: after_brace L
  ++ quoted (codes "chordSuggestions")
       (after_key L ++ ch ":" :: after_colon L
        ++ render_array L l (before_brace L ++ ch "}" :: rest)).

Definition render (L : layout) (l : list item) : list char :=
  render_then L l [].

(** White space of JSON. *)
Definition blank (w : list char) : bool := forallb is_json_ws w.

Definition layout_ok (L : layout) : bool :=
  blank (after_brace L) && blank (after_key L) && blank (after_colon L)
  && blank (in_empty L) && blank (before_brace L).

(** The text [w] between double quotes is a string literal of JSON for
    [s]: the characters as they are, or escaped. *)
Definition denotes (w s : list char) : bool :=
  bool_decide (parse_chars (w ++ [34]) = Some (s, [])).

Definition items_ok (l : list item) : bool :=
  forallb (fun i => blank (pre i) && blank (post i)
                    && denotes (written i) (symbol i)) l.

Definition symbols (l : list item) : list (list char) := map symbol l.

(** The array of strings that [JSON.parse] builds for the symbols. *)
Definition strings (cs : list (list char)) : value :=
  VJson (JArr (map JStr cs)).

(** No white space at all, as [JSON.stringify] writes. *)
Definition compact : layout :=
  {| after_brace := []; after_key := []; after_colon := [];
     in_empty := []; before_brace := [] |}.

Definition bare (chord : list char) : item :=
  {| pre := []; written := chord; symbol := chord; post := [] |}.

(** The pattern matches at no start position inside [prefix], when
    [prefix ++ rest] is the text. *)
Fixpoint no_match_inside (total : nat) (r : regex) (prefix rest : list char)
    : bool :=
  match prefix with
  | [] => true
  | _ :: prefix' =>
      match match_here total r (prefix ++ rest) with
      | Some _ => false
      | None => no_match_inside total r prefix' rest
      end
  end.

Definition no_earlier_match (r : regex) (prefix rest : list char) : bool :=
  no_match_inside (length (prefix ++ rest)) r prefix rest.

(** The code units a string literal holds as they are, and that do not
    close an array. *)
Definition plain (c : char) : bool :=
  (32 <=? c) && negb (c =? 34) && negb (c =? ch "\") && negb (c =? ch "]").

(** The class items of a pattern. *)
Fixpoint items_of (r : regex) : list cls_item :=
  match r with
  | Eps | Bol | Eol => []
  | Cls items => items
  | Seq r1 r2 | Alt r1 r2 => items_of r1 ++ items_of r2
  | Star _ r' | Opt r' => items_of r'
  end.

Definition item_plain (i : cls_item) : bool :=
  match i with
  | CChar x => plain x
  | CRange lo hi => ((35 <=? lo) && (hi <=? 91)) || (94 <=? lo)
  | CDigit => true
  | CSpace | CNonSpace => false
  end.

(** ** Auxiliary notions of the proofs, and sample data *)

(** The integer positions that [validatePosition] lets through. *)
Definition in_bounds (position : Z) (l : list Chord) : Prop :=
  (0 <= position < Z.of_nat (length l))%Z.

(** Whether a number lies in the range of the indices of an array, from
    [0] up to the length and without it. A fraction between [below] and
    [below + 1] does when [below] does; [NaN] and the infinities lie
    outside every such range. *)
Definition within_bounds {A} (position : jsnum) (l : list A) : bool :=
  match position with
  | Int z | Fraction z _ => (0 <=? z)%Z && (z <? Z.of_nat (length l))%Z
  | NaN | Infinity _ => false
  end.

(** The text does not go on with a member of the class. *)
Definition head_outside (items : list cls_item) (s : list char) : Prop :=
  match s with
  | c :: _ => cls_mem items c = false
  | [] => True
  end.

(** The pattern between [^] and [$]. *)
Definition CHORD_BODY : regex :=
  note >> Opt quality >> Opt digits >> Opt (Star true modifier)
  >> Opt (chr "/" >> note).

Definition not_closing (c : char) : bool := negb (c =? ch "]").

Definition item_ok (i : item) : bool :=
  blank (pre i) && blank (post i) && denotes (written i) (symbol i)
  && forallb not_closing (written i).

(** The text between the brackets of the array. *)
Definition array_body (L : layout) (l : list item) : list char :=
  match l with
  | [] => in_empty L
  | _ :: _ => render_items l []
  end.

Definition head_not_ws (s : list char) : Prop :=
  match s with
  | c :: _ => is_json_ws c = false
  | [] => True
  end.

(** What follows an element in the text: the closing bracket, or a comma
    and the elements left. *)
Definition elements_tail (l : list item) (rest : list char) : list char :=
  match l with
  | [] => rest
  | _ :: _ => ch "," :: render_items l rest
  end.

(** A progression used to instantiate the statements: key A minor, slots
    [Am], empty, [Dm]. *)
Definition sample_progression : Progression :=
  {| key := codes "A minor";
     chords := [Some (codes "Am"); None; Some (codes "Dm")] |}.

(** Twelve chord symbols, and a response that holds them: the object over
    several lines, one space after each comma. *)
Definition twelve_chords : list (list char) :=
  [codes "C"; codes "Am7"; codes "F#dim"; codes "G9"; codes "Dm";
   codes "Em"; codes "G/B"; codes "Csus4"; codes "Cadd9"; codes "Bb";
   codes "E7"; codes "Fmaj7"].

Definition spaced : layout :=
  {| after_brace := [10; 32; 32]; after_key := []; after_colon := [32];
     in_empty := []; before_brace := [10] |}.

Definition after_comma (chord : list char) : item :=
  {| pre := [32]; written := chord; symbol := chord; post := [] |}.

(** The third chord is written with an escape for the sharp sign. *)
Definition sample_items : list item :=
  <[2%nat := {| pre := [32]; written := codes "F\u0023dim";
                symbol := codes "F#dim"; post := [] |}]>
    (map after_comma twelve_chords).

Definition sample_response : list char := render spaced sample_items.

(** Eleven of the twelve chords, and the twelve with one more. *)
Definition eleven_response : list char :=
  render compact (map bare (take 11 twelve_chords)).

Definition thirteen_response : list char :=
  render compact (map bare (twelve_chords ++ [codes "A"])).


(** Prose that repeats the format of the answer before the answer. *)
Definition echoed_format : list char :=
  js "Format: {'chordSuggestions': ['list of 12 chords']}. Answer: ".

Definition fence_open : list char :=
  codes "Here are my suggestions:" ++ [10] ++ codes "```json" ++ [10].

Definition fence_close : list char := [10] ++ codes "```" ++ [10].

(** ** Ways to build a progression *)

(** The way the test cases fill a builder: for each chord, [addSlot()] and
    [addChord] at the index of the new slot, [i] for the first chord. *)
Fixpoint append_chords (i : Z) (cs : list (list char)) : method unit :=
  match cs with
  | [] => ret tt
  | c :: cs' => addSlot None ;;; addChord i c ;;; append_chords (i + 1) cs'
  end.

(** [n] times [addSlot()]. *)
Fixpoint add_slots (n : nat) : method unit :=
  match n with
  | O => ret tt
  | S n' => addSlot None ;;; add_slots n'
  end.

(** [addChord] at the indices [i], [i + 1], ... for the chords in order. *)
Fixpoint fill_chords (i : Z) (cs : list (list char)) : method unit :=
  match cs with
  | [] => ret tt
  | c :: cs' => addChord i c ;;; fill_chords (i + 1) cs'
  end.

(** ** Notions for the further properties of the validation *)

(** The letters of the notes. *)
Definition is_note_letter (c : char) : bool := (ch "A" <=? c) && (c <=? ch "G").

(** The code units that occur in the chord pattern. *)
Definition chord_char (c : char) : bool :=
  existsb (N.eqb c) (codes "ABCDEFG#b/0123456789Madgijmnsu").

(** The code units from [lo] to [hi]. *)
Definition code_range (lo hi : char) : list char :=
  map (fun k => lo + N.of_nat k) (seq 0 (S (N.to_nat (hi - lo)))).

(** Every member of the class item satisfies [P]. *)
Definition item_within (P : char -> bool) (i : cls_item) : bool :=
  match i with
  | CChar x => P x
  | CRange lo hi => forallb P (code_range lo hi)
  | CDigit => forallb P (code_range 48 57)
  | CSpace | CNonSpace => false
  end.

(** The response pattern between its first and its last brace. *)
Definition RESPONSE_INNER : regex :=
  ws >> Cls [CChar 34] >> lit "chordSuggestions" >> Cls [CChar 34]
  >> ws >> chr ":" >> ws >> chr "["
  >> Star false (Cls [CSpace; CNonSpace]) >> chr "]" >> ws.

(** The first of the symbols that does not conform. *)
Definition first_nonconforming (cs : list (list char))
    : option (list char) :=
  List.find (fun c => negb (conforms c)) cs.

(** ** What a pattern matches *)

(** [reach total r s s']: the pattern [r] matches a front part of [s] and
    leaves [s'], in a text of [total] code units. A quantifier does not
    take an iteration that matches nothing. *)
Inductive reach (total : nat) : regex -> list char -> list char -> Prop :=
  | reach_eps s : reach total Eps s s
  | reach_bol s : length s = total -> reach total Bol s s
  | reach_eol : reach total Eol [] []
  | reach_cls items c s :
      cls_mem items c = true -> reach total (Cls items) (c :: s) s
  | reach_seq r1 r2 s s1 s2 :
      reach total r1 s s1 -> reach total r2 s1 s2 ->
      reach total (Seq r1 r2) s s2
  | reach_alt_l r1 r2 s s' :
      reach total r1 s s' -> reach total (Alt r1 r2) s s'
  | reach_alt_r r1 r2 s s' :
      reach total r2 s s' -> reach total (Alt r1 r2) s s'
  | reach_star_stop greedy r s : reach total (Star greedy r) s s
  | reach_star_more greedy r s s1 s2 :
      reach total r s s1 -> (length s1 < length s)%nat ->
      reach total (Star greedy r) s1 s2 ->
      reach total (Star greedy r) s s2
  | reach_opt_skip r s : reach total (Opt r) s s
  | reach_opt_take r s s' :
      reach total r s s' -> (length s' < length s)%nat ->
      reach total (Opt r) s s'.

(** The chord symbols, part by part. *)
Definition accidentals : list (list char) := [[]; codes "#"; codes "b"].

Definition qualities : list (list char) :=
  [[]; codes "maj"; codes "maj7"; codes "M"; codes "M7"; codes "min";
   codes "min7"; codes "m"; codes "m7"; codes "dim"; codes "dim7";
   codes "aug"; codes "aug7"].

Definition modifier_words : list (list char) :=
  [codes "sus"; codes "add"; codes "b"; codes "#"].

(** A number: digits, at least one. *)
Definition is_number (d : list char) : Prop :=
  d <> [] /\ forallb is_digit d = true.

Definition is_modifier (m : list char) : Prop :=
  exists word d, m = word ++ d /\ In word modifier_words /\ is_number d.

Definition is_bass (b : list char) : Prop :=
  b = [] \/
  exists letter acc,
    b = ch "/" :: letter :: acc
    /\ is_note_letter letter = true /\ In acc accidentals.

(** A chord symbol: the letter of a note, an accidental or none, a quality
    or none, digits or none, modifiers (a word and a number each), and a
    slash with a bass note or none. *)
Definition chord_symbol (c : list char) : Prop :=
  exists letter acc qual ext mods bass,
    c = letter :: acc ++ qual ++ ext ++ concat mods ++ bass
    /\ is_note_letter letter = true
    /\ In acc accidentals
    /\ In qual qualities
    /\ forallb is_digit ext = true
    /\ Forall is_modifier mods
    /\ is_bass bass.

(** White space of the pattern language ([\s]). *)
Definition spaces (w : list char) : bool := forallb is_space w.

(** The text holds a part of the shape that the response pattern asks for:
    a brace, the key between double quotes, a colon, a bracket, any text, a
    bracket and a brace, with white space allowed between them. *)
Definition has_response_shape (text : list char) : Prop :=
  exists before w1 w2 w3 body w4 after,
    text = before ++ ch "{" :: w1
           ++ quoted (codes "chordSuggestions")
                (w2 ++ ch ":" :: w3 ++ ch "[" :: body
                 ++ ch "]" :: w4 ++ ch "}" :: after)
    /\ spaces w1 = true /\ spaces w2 = true /\ spaces w3 = true
    /\ spaces w4 = true.

(** A response whose second element is [null]. *)
Definition null_in_second_place : list char :=
  js "{'chordSuggestions':['C',null,'D','E','F','G','A','B','C','D','E','F']}".

(** * Properties of the progression store *)

Section Store.
Implicit Types (p : Progression) (position : Z) (l : list Chord).

Lemma validatePosition_ok p position :
  in_bounds position (chords p) ->
  validatePosition position p = (Returns tt, p).
Proof.
  unfold in_bounds, validatePosition, bind, get_chords, ret; intros H.
  cbn [less_than at_least].
  destruct (position <? 0)%Z eqn:E1; [lia|].
  destruct (position >=? _)%Z eqn:E2; [lia|]. reflexivity.
Qed.

Lemma validatePosition_throws p position :
  ~ in_bounds position (chords p) ->
  validatePosition position p =
    (Throws (InvalidPosition position (Z.of_nat (length (chords p)) - 1)), p).
Proof.
  unfold in_bounds, validatePosition, bind, get_chords, throw; intros H.
  cbn [less_than at_least].
  destruct (position <? 0)%Z eqn:E1; [reflexivity|].
  destruct (position >=? _)%Z eqn:E2; [reflexivity|]. lia.
Qed.

(** A method that validates first: thrown error and untouched state
    outside the bounds, the rest of the body within. *)
Lemma guarded_throws {A} (body : unit -> method A) p position :
  ~ in_bounds position (chords p) ->
  bind (validatePosition position) body p =
    (Throws (InvalidPosition position (Z.of_nat (length (chords p)) - 1)), p).
Proof.
  intros H. unfold bind at 1. rewrite validatePosition_throws by exact H.
  reflexivity.
Qed.

Lemma guarded_runs {A} (body : unit -> method A) p position :
  in_bounds position (chords p) ->
  bind (validatePosition position) body p = body tt p.
Proof.
  intros H. unfold bind at 1. rewrite validatePosition_ok by exact H.
  reflexivity.
Qed.

Lemma splice_insert {A} (x : A) (l : list A) position :
  (0 <= position <= Z.of_nat (length l))%Z ->
  splice position 0 [x] l =
    take (Z.to_nat position) l ++ x :: drop (Z.to_nat position) l.
Proof.
  intros H. unfold splice. cbn [truncate].
  destruct (position <? 0)%Z eqn:E; [lia|].
  rewrite Z.min_l by lia.
  replace (Z.min (Z.max 0 0) _) with 0%Z by lia.
  rewrite Z.add_0_r. reflexivity.
Qed.

Lemma splice_delete {A} (l : list A) position :
  (0 <= position < Z.of_nat (length l))%Z ->
  splice position 1 [] l = delete (Z.to_nat position) l.
Proof.
  intros H. unfold splice. cbn [truncate].
  destruct (position <? 0)%Z eqn:E; [lia|].
  rewrite Z.min_l by lia.
  replace (Z.min (Z.max 1 0) _) with 1%Z by lia.
  rewrite delete_take_drop. simpl.
  replace (Z.to_nat (position + 1)) with (S (Z.to_nat position)) by lia.
  reflexivity.
Qed.

Lemma assign_in_bounds {A} (hole x : A) (l : list A) position :
  (0 <= position < Z.of_nat (length l))%Z ->
  assign hole position x l = <[Z.to_nat position := x]> l.
Proof.
  intros H. unfold assign.
  destruct (position <? 0)%Z eqn:E; [lia|].
  destruct (position <? Z.of_nat (length l))%Z eqn:E'; [reflexivity|lia].
Qed.

Lemma addSlot_append p :
  addSlot None p =
    (Returns tt, {| key := key p; chords := chords p ++ [None] |}).
Proof. reflexivity. Qed.

Lemma addSlot_at p position :
  in_bounds position (chords p) ->
  addSlot (Some (Int position)) p =
    (Returns tt,
     {| key := key p;
        chords := take (Z.to_nat position) (chords p)
                  ++ None :: drop (Z.to_nat position) (chords p) |}).
Proof.
  intros H. unfold addSlot. rewrite guarded_runs by exact H.
  unfold bind, get_chords, set_chords; cbn beta iota.
  rewrite splice_insert by (unfold in_bounds in H; lia). reflexivity.
Qed.

Lemma addChord_at p position chord :
  in_bounds position (chords p) ->
  addChord position chord p =
    (Returns tt,
     {| key := key p;
        chords := <[Z.to_nat position := Some chord]> (chords p) |}).
Proof.
  intros H. unfold addChord. rewrite guarded_runs by exact H.
  unfold bind, get_chords, set_chords; cbn beta iota.
  rewrite assign_in_bounds by exact H. reflexivity.
Qed.

Lemma removeChord_at p position :
  in_bounds position (chords p) ->
  removeChord position p =
    (Returns tt,
     {| key := key p;
        chords := <[Z.to_nat position := None]> (chords p) |}).
Proof.
  intros H. unfold removeChord. rewrite guarded_runs by exact H.
  unfold bind, get_chords, set_chords; cbn beta iota.
  rewrite assign_in_bounds by exact H. reflexivity.
Qed.

Lemma removeSlot_at p position :
  in_bounds position (chords p) ->
  removeSlot position p =
    (Returns tt,
     {| key := key p; chords := delete (Z.to_nat position) (chords p) |}).
Proof.
  intros H. unfold removeSlot. rewrite guarded_runs by exact H.
  unfold bind, get_chords, set_chords; cbn beta iota.
  rewrite splice_delete by exact H. reflexivity.
Qed.


Lemma validatePosition_outside p (n : jsnum) :
  within_bounds n (chords p) = false -> n <> NaN ->
  validatePosition n p =
    (Throws (InvalidPosition n (Z.of_nat (length (chords p)) - 1)), p).
Proof.
  unfold validatePosition, bind, get_chords, throw.
  destruct n as [z|b shown| |negative];
    cbn [within_bounds less_than at_least]; intros H Hn.
  - destruct (z <? 0)%Z eqn:E1; [reflexivity|].
    destruct (z >=? _)%Z eqn:E2; [reflexivity|]. lia.
  - destruct (b <? 0)%Z eqn:E1; [reflexivity|].
    destruct (b >=? _)%Z eqn:E2; [reflexivity|]. lia.
  - congruence.
  - destruct negative; reflexivity.
Qed.

Lemma validatePosition_NaN p : validatePosition NaN p = (Returns tt, p).
Proof. reflexivity. Qed.

Lemma outside_throws {A} (body : unit -> method A) p (n : jsnum) :
  within_bounds n (chords p) = false -> n <> NaN ->
  bind (validatePosition n) body p =
    (Throws (InvalidPosition n (Z.of_nat (length (chords p)) - 1)), p).
Proof.
  intros H Hn. unfold bind at 1.
  rewrite validatePosition_outside by assumption. reflexivity.
Qed.




Lemma splice_NaN_insert {A} (x : A) (l : list A) :
  splice NaN 0 [x] l = x :: l.
Proof.
  unfold splice. cbn [truncate]. cbn [Z.ltb Z.compare].
  rewrite Z.min_l by lia.
  replace (Z.min (Z.max 0 0) _) with 0%Z by lia. reflexivity.
Qed.

Lemma splice_NaN_delete {A} (l : list A) :
  splice NaN 1 [] l = drop 1 l.
Proof.
  unfold splice. cbn [truncate]. cbn [Z.ltb Z.compare].
  rewrite Z.min_l by lia.
  destruct l as [|x l].
  - reflexivity.
  - replace (Z.min (Z.max 1 0) _) with 1%Z
      by (cbn [length]; lia).
    reflexivity.
Qed.
End Store.


(** * Properties of the matcher *)

Section MatcherFacts.
Context {A : Type} (total : nat).
Implicit Types (k : list char -> option A) (s w : list char).

Lemma shorter_tail (c : N) s : (length s <? length (c :: s))%nat = true.
Proof. apply Nat.ltb_lt. simpl. lia. Qed.

(** A greedy star over a class takes the whole run of members and goes
    on, when going on succeeds there. *)
Lemma star_greedy_run items k w s x n :
  forallb (cls_mem items) w = true ->
  head_outside items s ->
  k s = Some x ->
  (length w <= n)%nat ->
  star_loop true (run total (Cls items)) k n (w ++ s) = Some x.
Proof.
  intros Hw Hs Hk. revert n.
  induction w as [|c w IH]; intros n Hn.
  - destruct n as [|n]; [exact Hk|].
    cbn [app star_loop]. destruct s as [|c s']; cbn [run].
    + exact Hk.
    + cbn in Hs. rewrite Hs. exact Hk.
  - destruct n as [|n]; [simpl in Hn; lia|].
    cbn [forallb] in Hw. apply andb_prop in Hw as [Hc Hw].
    cbn [app star_loop run]. rewrite Hc.
    change (c :: w ++ s) with (c :: (w ++ s)).
    rewrite shorter_tail.
    rewrite IH by (auto; simpl in Hn; lia). reflexivity.
Qed.

(** A lazy star over a class that holds every code unit stops at the
    first place where going on succeeds. *)
Lemma star_lazy_skip items k w s x n :
  (forall c, cls_mem items c = true) ->
  (forall w1 c w2, w = w1 ++ c :: w2 -> k (c :: w2 ++ s) = None) ->
  k s = Some x ->
  (length w <= n)%nat ->
  star_loop false (run total (Cls items)) k n (w ++ s) = Some x.
Proof.
  intros Hall Hw Hk. revert n.
  induction w as [|c w IH]; intros n Hn.
  - destruct n as [|n]; cbn [app star_loop]; rewrite Hk; reflexivity.
  - destruct n as [|n]; [simpl in Hn; lia|].
    cbn [app star_loop].
    rewrite (Hw [] c w eq_refl).
    cbn [run]. rewrite Hall, shorter_tail.
    apply IH; [|simpl in Hn; lia].
    intros w1 c' w2 ->. apply (Hw (c :: w1) c' w2). reflexivity.
Qed.

Lemma run_chars (l : list ascii) (r : regex) k s :
  run total (foldr (fun a r' => Seq (chr a) r') r l) k (map ch l ++ s)
  = run total r k s.
Proof.
  induction l as [|a l IH]; [reflexivity|].
  cbn [foldr map app run chr cls_mem existsb item_mem].
  rewrite N.eqb_refl. cbn [orb]. exact IH.
Qed.

Lemma run_lit (str : string) k s :
  run total (lit str) k (codes str ++ s) = k s.
Proof. unfold lit, codes. apply run_chars. Qed.

(** The code units that a match goes over belong to the classes of the
    pattern. *)
Lemma star_loop_consumes ok greedy
    (body : (list char -> option A) -> list char -> option A) :
  (forall k s x, body k s = Some x ->
     exists w s', s = w ++ s' /\ forallb ok w = true /\ k s' = Some x) ->
  forall n k s x, star_loop greedy body k n s = Some x ->
    exists w s', s = w ++ s' /\ forallb ok w = true /\ k s' = Some x.
Proof.
  intros Hbody n. induction n as [|n IH]; intros k s x H.
  - exists [], s. auto.
  - cbn [star_loop] in H.
    assert (Hagain : body
              (fun s' => if (length s' <? length s)%nat
                         then star_loop greedy body k n s' else None) s
            = Some x ->
            exists w s', s = w ++ s' /\ forallb ok w = true
                         /\ k s' = Some x).
    { intros Hb. apply Hbody in Hb as (w1 & s1 & -> & Hw1 & Hs1).
      destruct (length s1 <? length (w1 ++ s1))%nat; [|discriminate].
      apply IH in Hs1 as (w2 & s2 & -> & Hw2 & Hs2).
      exists (w1 ++ w2), s2. rewrite forallb_app, Hw1, Hw2, app_assoc.
      auto. }
    destruct greedy.
    + destruct (body _ s) as [y|] eqn:E.
      * apply Hagain. congruence.
      * exists [], s. auto.
    + destruct (k s) as [y|] eqn:E.
      * exists [], s. split; [reflexivity|]. split; [reflexivity|].
        congruence.
      * apply Hagain. exact H.
Qed.

Lemma cls_mem_app items1 items2 c :
  cls_mem (items1 ++ items2) c = cls_mem items1 c || cls_mem items2 c.
Proof. unfold cls_mem. apply existsb_app. Qed.

Lemma forallb_weaken {B} (f g : B -> bool) (l : list B) :
  (forall b, f b = true -> g b = true) ->
  forallb f l = true -> forallb g l = true.
Proof.
  intros Hfg. induction l as [|b l IH]; [reflexivity|].
  cbn [forallb]. intros H. apply andb_prop in H as [H1 H2].
  rewrite (Hfg _ H1), (IH H2). reflexivity.
Qed.

Lemma run_consumes r : forall k s x,
  run total r k s = Some x ->
  exists w s', s = w ++ s'
               /\ forallb (cls_mem (items_of r)) w = true
               /\ k s' = Some x.
Proof.
  induction r as [| | |items|r1 IH1 r2 IH2|r1 IH1 r2 IH2|g r IH|r IH];
    intros k s x H; cbn [run items_of] in *.
  - exists [], s. auto.
  - destruct (length s =? total)%nat; [|discriminate]. exists [], s. auto.
  - destruct s; [|discriminate]. exists [], []. auto.
  - destruct s as [|c s]; [discriminate|].
    destruct (cls_mem items c) eqn:E; [|discriminate].
    exists [c], s. cbn [forallb]. rewrite E. auto.
  - apply IH1 in H as (w1 & s1 & -> & Hw1 & H).
    apply IH2 in H as (w2 & s2 & -> & Hw2 & H).
    exists (w1 ++ w2), s2. rewrite app_assoc. split; [reflexivity|].
    split; [|exact H]. rewrite forallb_app. apply andb_true_intro. split.
    + revert Hw1. apply forallb_weaken. intros c Hc.
      rewrite cls_mem_app, Hc. reflexivity.
    + revert Hw2. apply forallb_weaken. intros c Hc.
      rewrite cls_mem_app, Hc. apply orb_true_r.
  - destruct (run total r1 k s) as [y|] eqn:E.
    + rewrite H in E. apply IH1 in E as (w & s' & -> & Hw & E).
      exists w, s'. split; [reflexivity|]. split; [|exact E].
      revert Hw. apply forallb_weaken. intros c Hc.
      rewrite cls_mem_app, Hc. reflexivity.
    + apply IH2 in H as (w & s' & -> & Hw & H).
      exists w, s'. split; [reflexivity|]. split; [|exact H].
      revert Hw. apply forallb_weaken. intros c Hc.
      rewrite cls_mem_app, Hc. apply orb_true_r.
  - revert H. apply star_loop_consumes. exact IH.
  - destruct (run total r _ s) as [y|] eqn:E.
    + rewrite H in E. apply IH in E as (w & s' & -> & Hw & E).
      destruct (length s' <? length (w ++ s'))%nat; [|discriminate].
      exists w, s'. auto.
    + exists [], s. auto.
Qed.
(** A pattern whose continuation never succeeds does not match. *)
Lemma run_none r k s : (forall s', k s' = None) -> run total r k s = None.
Proof.
  intros Hk. destruct (run total r k s) as [x|] eqn:E; [|reflexivity].
  apply run_consumes in E as (w & s' & _ & _ & E).
  rewrite Hk in E. discriminate.
Qed.

(** The matcher calls its continuation on what is left of the input
    only. *)
Lemma star_loop_ext greedy
    (body : (list char -> option A) -> list char -> option A) :
  (forall k1 k2 s,
     (forall s', (length s' <= length s)%nat -> k1 s' = k2 s') ->
     body k1 s = body k2 s) ->
  forall n k1 k2 s,
    (forall s', (length s' <= length s)%nat -> k1 s' = k2 s') ->
    star_loop greedy body k1 n s = star_loop greedy body k2 n s.
Proof.
  intros Hbody n. induction n as [|n IH]; intros k1 k2 s Hk.
  - cbn [star_loop]. apply Hk. lia.
  - cbn [star_loop]. rewrite (Hk s) by lia.
    rewrite (Hbody _ (fun s' => if (length s' <? length s)%nat
                                then star_loop greedy body k2 n s'
                                else None) s).
    + reflexivity.
    + intros s' Hs'. destruct (length s' <? length s)%nat eqn:E;
        [|reflexivity].
      apply IH. intros s'' Hs''. apply Hk. lia.
Qed.

Lemma run_ext r : forall k1 k2 s,
  (forall s', (length s' <= length s)%nat -> k1 s' = k2 s') ->
  run total r k1 s = run total r k2 s.
Proof.
  induction r as [| | |items|r1 IH1 r2 IH2|r1 IH1 r2 IH2|g r IH|r IH];
    intros k1 k2 s Hk; cbn [run].
  - apply Hk. lia.
  - rewrite (Hk s) by lia. reflexivity.
  - rewrite (Hk s) by lia. reflexivity.
  - destruct s as [|c s]; [reflexivity|].
    rewrite (Hk s) by (simpl; lia). reflexivity.
  - apply IH1. intros s' Hs'. apply IH2. intros s'' Hs''. apply Hk. lia.
  - rewrite (IH1 k1 k2 s Hk), (IH2 k1 k2 s Hk). reflexivity.
  - apply star_loop_ext; assumption.
  - rewrite (Hk s) by lia.
    rewrite (IH _ (fun s' => if (length s' <? length s)%nat then k2 s'
                             else None) s).
    + reflexivity.
    + intros s' Hs'. rewrite (Hk s' Hs'). reflexivity.
Qed.

(** The fuel of the repeat matcher is enough: with [length s] units or
    more the result is the same. *)
Lemma star_loop_fuel_step greedy r k n : forall s,
  (length s <= n)%nat ->
  star_loop greedy (run total r) k (S n) s
  = star_loop greedy (run total r) k n s.
Proof.
  induction n as [|n IH]; intros s Hs.
  - destruct s; [|simpl in Hs; lia].
    cbn [star_loop length]. rewrite run_none by reflexivity.
    destruct greedy; [reflexivity|]. destruct (k []); reflexivity.
  - change (star_loop greedy (run total r) k (S (S n)) s)
      with (let again s' :=
              if (length s' <? length s)%nat
              then star_loop greedy (run total r) k (S n) s' else None in
            if greedy
            then match run total r again s with
                 | Some x => Some x
                 | None => k s
                 end
            else match k s with
                 | Some x => Some x
                 | None => run total r again s
                 end).
    cbv zeta. cbn [star_loop].
    rewrite (run_ext r _ (fun s' => if (length s' <? length s)%nat
                                    then star_loop greedy (run total r) k n s'
                                    else None) s).
    + reflexivity.
    + intros s' _. destruct (length s' <? length s)%nat eqn:E;
        [|reflexivity].
      apply Nat.ltb_lt in E. apply IH. lia.
Qed.

Lemma star_loop_fuel greedy r k s extra :
  star_loop greedy (run total r) k (length s + extra) s
  = run total (Star greedy r) k s.
Proof.
  cbn [run]. induction extra as [|extra IH].
  - rewrite Nat.add_0_r. reflexivity.
  - rewrite Nat.add_succ_r, star_loop_fuel_step by lia. exact IH.
Qed.

End MatcherFacts.

(** A match that [search] finds starts at some position of the text. *)
Lemma search_found total r s m :
  search total r s = Some m ->
  exists s1 s2 rest, s = s1 ++ s2 /\ match_here total r s2 = Some rest.
Proof.
  induction s as [|c s IH]; cbn [search].
  - destruct (match_here total r []) as [rest|] eqn:E; [|discriminate].
    intros _. exists [], [], rest. auto.
  - destruct (match_here total r (c :: s)) as [rest|] eqn:E.
    + intros _. exists [], (c :: s), rest. auto.
    + intros H. apply IH in H as (s1 & s2 & rest & -> & H).
      exists (c :: s1), s2, rest. auto.
Qed.

(** The first start position at which the pattern matches gives the
    match. *)
Lemma search_first total r prefix text rest :
  no_match_inside total r prefix (text ++ rest) = true ->
  match_here total r (text ++ rest) = Some rest ->
  search total r (prefix ++ text ++ rest) = Some text.
Proof.
  intros Hpre Hm. induction prefix as [|c prefix IH].
  - cbn [app]. destruct (text ++ rest) as [|c s] eqn:E.
    + cbn [search]. rewrite Hm.
      apply app_eq_nil in E as [-> ->]. reflexivity.
    + cbn [search]. rewrite Hm. rewrite <- E.
      rewrite length_app, Nat.add_sub, take_app_length. reflexivity.
  - cbn [no_match_inside] in Hpre. cbn [app search].
    change (c :: prefix ++ text ++ rest)
      with ((c :: prefix) ++ text ++ rest).
    destruct (match_here total r ((c :: prefix) ++ text ++ rest));
      [discriminate|].
    apply IH. exact Hpre.
Qed.

(** * Chord symbols that conform are plain text *)

Ltac bool_to_prop :=
  repeat match goal with
    | H : _ && _ = true |- _ => apply andb_prop in H as [? ?]
    | H : _ || _ = true |- _ => apply orb_prop in H as [?|?]
    | H : negb _ = true |- _ => apply negb_true_iff in H
    | H : (_ =? _) = true |- _ => apply N.eqb_eq in H
    | H : (_ =? _) = false |- _ => apply N.eqb_neq in H
    | H : (_ <=? _) = true |- _ => apply N.leb_le in H
    | H : (_ <=? _) = false |- _ => apply N.leb_gt in H
    | H : (_ <? _) = true |- _ => apply N.ltb_lt in H
    | H : (_ <? _) = false |- _ => apply N.ltb_ge in H
    end.

Lemma plain_spec c :
  plain c = true <-> 32 <= c /\ c <> 34 /\ c <> 92 /\ c <> 93.
Proof.
  unfold plain. change (ch "\") with 92. change (ch "]") with 93.
  rewrite !andb_true_iff, !negb_true_iff, !N.eqb_neq, N.leb_le. tauto.
Qed.

Lemma item_plain_mem i c :
  item_plain i = true -> item_mem i c = true -> plain c = true.
Proof.
  destruct i as [x|lo hi| | |]; cbn [item_plain item_mem]; intros Hi Hc;
    try discriminate.
  - apply N.eqb_eq in Hc. subst c. exact Hi.
  - apply plain_spec. bool_to_prop; lia.
  - apply plain_spec. unfold is_digit in Hc. bool_to_prop; lia.
Qed.

Lemma cls_plain_mem items c :
  forallb item_plain items = true -> cls_mem items c = true ->
  plain c = true.
Proof.
  unfold cls_mem. induction items as [|i items IH]; cbn [forallb existsb].
  - discriminate.
  - intros Hi Hc. apply andb_prop in Hi as [Hi Hitems].
    apply orb_prop in Hc as [Hc|Hc].
    + exact (item_plain_mem i c Hi Hc).
    + exact (IH Hitems Hc).
Qed.

Lemma chord_pattern_here total s rest :
  match_here total CHORD_PATTERN s = Some rest ->
  length s = total /\ rest = []
  /\ run total CHORD_BODY (fun s' => match s' with [] => Some s' | _ => None end) s
     = Some [].
Proof.
  unfold match_here.
  change (run total CHORD_PATTERN Some s)
    with (if (length s =? total)%nat
          then run total CHORD_BODY (run total Eol Some) s else None).
  destruct (length s =? total)%nat eqn:E; [|discriminate].
  apply Nat.eqb_eq in E. intros H. split; [exact E|].
  destruct (run_consumes total CHORD_BODY _ _ _ H) as (w & s' & _ & _ & Hs').
  cbn [run] in Hs'. destruct s'; [|discriminate].
  injection Hs' as <-. split; [reflexivity|]. exact H.
Qed.

Lemma conforms_plain chord :
  conforms chord = true -> forallb plain chord = true.
Proof.
  unfold conforms, regex_match.
  destruct (search (length chord) CHORD_PATTERN chord) as [m|] eqn:E;
    [intros _|discriminate].
  apply search_found in E as (s1 & s2 & rest & Hsplit & Hm).
  apply chord_pattern_here in Hm as (Hlen & _ & Hm).
  assert (s1 = []) as ->.
  { subst chord. rewrite length_app in Hlen. destruct s1; [reflexivity|].
    simpl in Hlen. lia. }
  cbn [app] in Hsplit. subst s2.
  apply run_consumes in Hm as (w & s' & -> & Hw & Hs').
  destruct s'; [|discriminate]. rewrite app_nil_r.
  revert Hw. apply forallb_weaken. intros c.
  apply cls_plain_mem. vm_compute. reflexivity.
Qed.

(** * The response pattern on a well-formed response *)

Section ResponsePattern.
Context {A : Type} (total : nat).
Implicit Types (k : list char -> option A) (s w : list char).

Lemma run_chr_step a r k s :
  run total (chr a >> r) k (ch a :: s) = run total r k s.
Proof.
  cbn [run chr cls_mem existsb item_mem]. rewrite N.eqb_refl. reflexivity.
Qed.

Lemma run_chr_last a k s : run total (chr a) k (ch a :: s) = k s.
Proof.
  cbn [run chr cls_mem existsb item_mem]. rewrite N.eqb_refl. reflexivity.
Qed.

Lemma run_char_step c r k s :
  run total (Cls [CChar c] >> r) k (c :: s) = run total r k s.
Proof.
  cbn [run cls_mem existsb item_mem]. rewrite N.eqb_refl. reflexivity.
Qed.

Lemma run_lit_step str r k s :
  run total (lit str >> r) k (codes str ++ s) = run total r k s.
Proof. cbn [run]. apply run_lit. Qed.

Lemma json_ws_space c : is_json_ws c = true -> is_space c = true.
Proof.
  unfold is_json_ws, is_space. intros H.
  repeat (apply orb_prop in H as [H|H]); rewrite H;
    rewrite ?orb_true_r; reflexivity.
Qed.

Lemma blank_spaces w :
  blank w = true -> forallb (cls_mem [CSpace]) w = true.
Proof.
  apply forallb_weaken. intros c Hc.
  cbn [cls_mem existsb item_mem]. rewrite (json_ws_space c Hc). reflexivity.
Qed.

(** [\s*] goes over the white space before a token. *)
Lemma run_ws_step r k w s x :
  blank w = true ->
  head_outside [CSpace] s ->
  run total r k s = Some x ->
  run total (ws >> r) k (w ++ s) = Some x.
Proof.
  intros Hw Hs Hk. unfold ws. cbn [run].
  apply (star_greedy_run total); auto using blank_spaces.
  rewrite length_app. lia.
Qed.
End ResponsePattern.

Lemma plain_not_closing c : plain c = true -> not_closing c = true.
Proof.
  unfold plain, not_closing. intros H.
  apply andb_prop in H as [_ H]. exact H.
Qed.

Lemma blank_not_closing w :
  blank w = true -> forallb not_closing w = true.
Proof.
  apply forallb_weaken. intros c Hc. unfold is_json_ws in Hc.
  unfold not_closing. change (ch "]") with 93.
  apply negb_true_iff, N.eqb_neq. bool_to_prop; lia.
Qed.

Ltac list_norm :=
  repeat first
    [ rewrite <- app_assoc | rewrite <- app_comm_cons | rewrite app_nil_r
    | rewrite app_nil_l ].

Lemma render_items_app l rest :
  render_items l rest = render_items l [] ++ rest.
Proof.
  induction l as [|i l IH]; [reflexivity|].
  destruct l as [|i' l].
  - cbn [render_items]. unfold quoted. list_norm. reflexivity.
  - change (render_items (i :: i' :: l) rest)
      with (pre i ++ quoted (written i)
              (post i ++ ch "," :: render_items (i' :: l) rest)).
    change (render_items (i :: i' :: l) [])
      with (pre i ++ quoted (written i)
              (post i ++ ch "," :: render_items (i' :: l) [])).
    rewrite IH. unfold quoted. list_norm. reflexivity.
Qed.

Lemma render_items_not_closing l :
  forallb item_ok l = true ->
  forallb not_closing (render_items l []) = true.
Proof.
  induction l as [|i l IH]; [reflexivity|].
  cbn [forallb]. intros H. apply andb_prop in H as [Hi Hl].
  unfold item_ok in Hi. apply andb_prop in Hi as [Hi Hsym].
  apply andb_prop in Hi as [Hi _]. apply andb_prop in Hi as [Hpre Hpost].
  assert (Hq : forall rest, forallb not_closing rest = true ->
            forallb not_closing
              (pre i ++ quoted (written i) (post i ++ rest)) = true).
  { intros rest Hrest. unfold quoted.
    rewrite forallb_app. cbn [forallb]. rewrite !forallb_app.
    cbn [forallb]. rewrite forallb_app.
    rewrite (blank_not_closing _ Hpre), (blank_not_closing _ Hpost), Hrest.
    rewrite Hsym. reflexivity. }
  destruct l as [|i' l].
  - cbn [render_items]. apply Hq. reflexivity.
  - change (render_items (i :: i' :: l) [])
      with (pre i ++ quoted (written i)
              (post i ++ ch "," :: render_items (i' :: l) [])).
    apply Hq. cbn [forallb]. rewrite (IH Hl). reflexivity.
Qed.

Lemma render_array_body L l rest :
  render_array L l rest = ch "[" :: array_body L l ++ ch "]" :: rest.
Proof.
  unfold render_array, array_body. destruct l as [|i l]; [reflexivity|].
  rewrite render_items_app. reflexivity.
Qed.

Lemma array_body_not_closing L l :
  layout_ok L = true -> forallb item_ok l = true ->
  forallb not_closing (array_body L l) = true.
Proof.
  intros HL Hl. unfold array_body. destruct l as [|i l].
  - apply blank_not_closing. unfold layout_ok in HL.
    apply andb_prop in HL as [HL _]. apply andb_prop in HL as [_ HL].
    exact HL.
  - apply render_items_not_closing. exact Hl.
Qed.

Lemma closing_needs_bracket total c s :
  not_closing c = true -> run total CLOSING Some (c :: s) = None.
Proof.
  unfold not_closing, CLOSING. intros H. apply negb_true_iff in H.
  cbn [run chr cls_mem existsb item_mem]. rewrite H. reflexivity.
Qed.

Lemma closing_here total w rest :
  blank w = true ->
  run total CLOSING Some (ch "]" :: w ++ ch "}" :: rest) = Some rest.
Proof.
  intros Hw. unfold CLOSING. rewrite run_chr_step.
  apply run_ws_step; [exact Hw|reflexivity|]. apply run_chr_last.
Qed.

(** At the opening brace of a well-formed response the pattern matches the
    object and nothing more, whatever follows the object. *)
Lemma response_pattern_here total L l rest :
  layout_ok L = true -> forallb item_ok l = true ->
  match_here total RESPONSE_PATTERN (render_then L l rest) = Some rest.
Proof.
  intros HL Hl. pose proof HL as HL'. unfold layout_ok in HL'.
  bool_to_prop.
  unfold match_here, RESPONSE_PATTERN, render_then, quoted.
  change (run total (OPENING >> ?r) Some ?s)
    with (run total OPENING (run total r Some) s).
  unfold OPENING.
  rewrite run_chr_step.
  apply run_ws_step; [assumption|reflexivity|].
  rewrite run_char_step, run_lit_step, run_char_step.
  apply run_ws_step; [assumption|reflexivity|].
  rewrite run_chr_step.
  rewrite render_array_body.
  apply run_ws_step; [assumption|reflexivity|].
  rewrite run_chr_last.
  cbn [run].
  apply (star_lazy_skip total).
  - intros c. cbn [cls_mem existsb item_mem]. destruct (is_space c); reflexivity.
  - intros w1 c w2 Hsplit. apply closing_needs_bracket.
    pose proof (array_body_not_closing L l HL Hl) as Hbody.
    rewrite Hsplit, forallb_app in Hbody. cbn [forallb] in Hbody.
    bool_to_prop. assumption.
  - apply closing_here. assumption.
  - rewrite length_app. lia.
Qed.

(** * The fuel of the JSON parser is enough *)

Lemma skip_ws_length s : (length (skip_ws s) <= length s)%nat.
Proof.
  induction s as [|c s IH]; [reflexivity|].
  cbn [skip_ws]. destruct (is_json_ws c); simpl; lia.
Qed.

Lemma push_length u o str r (n : nat) :
  push u o = Some (str, r) ->
  (forall str' r', o = Some (str', r') -> (length r' < n)%nat) ->
  (length r < n)%nat.
Proof.
  destruct o as [[str' r']|]; [|discriminate]. cbn [push].
  intros [= <- <-] H. exact (H str' r' eq_refl).
Qed.

Lemma parse_chars_length_upto n : forall s str r,
  (length s <= n)%nat ->
  parse_chars s = Some (str, r) -> (length r < length s)%nat.
Proof.
  induction n as [|n IH]; intros s str r Hn H.
  - destruct s; [discriminate|simpl in Hn; lia].
  - destruct s as [|c s1]; [discriminate|]. cbn [parse_chars] in H.
    cbn [length] in *.
    destruct (c =? 34); [injection H as <- <-; lia|].
    destruct (c =? ch "\").
    + destruct s1 as [|e s2]; [discriminate|]. cbn [length] in *.
      destruct (e =? ch "u").
      * destruct s2 as [|h1 [|h2 [|h3 [|h4 s3]]]]; try discriminate.
        cbn [length] in *.
        destruct (hex4 h1 h2 h3 h4); [|discriminate].
        apply (push_length _ _ _ _ (S (S (S (S (S (S (length s3)))))))) in H;
          [exact H|].
        intros str' r' E. apply IH in E; lia.
      * destruct (simple_escape e); [|discriminate].
        apply (push_length _ _ _ _ (S (S (length s2)))) in H; [exact H|].
        intros str' r' E. apply IH in E; lia.
    + destruct (c <? 32); [discriminate|].
      apply (push_length _ _ _ _ (S (length s1))) in H; [exact H|].
      intros str' r' E. apply IH in E; lia.
Qed.

Lemma parse_chars_length s str r :
  parse_chars s = Some (str, r) -> (length r < length s)%nat.
Proof. apply (parse_chars_length_upto (length s)). lia. Qed.

Lemma span_digits_length s : forall d r,
  span_digits s = (d, r) -> (length r <= length s)%nat.
Proof.
  induction s as [|c s IH]; intros d r; cbn [span_digits].
  - intros [= <- <-]. reflexivity.
  - destruct (is_digit c).
    + destruct (span_digits s) as [d' r'] eqn:E. intros [= <- <-].
      specialize (IH d' r' eq_refl). simpl. lia.
    + intros [= <- <-]. reflexivity.
Qed.

Lemma parse_fraction_length s d r :
  parse_fraction s = Some (d, r) -> (length r <= length s)%nat.
Proof.
  unfold parse_fraction. destruct s as [|c s1]; [intros [= <- <-]; lia|].
  destruct (c =? ch "."); [|intros [= <- <-]; lia].
  destruct (span_digits s1) as [d' r'] eqn:E.
  apply span_digits_length in E.
  destruct d'; [discriminate|]. intros [= <- <-]. simpl. lia.
Qed.

Lemma parse_exponent_length s e r :
  parse_exponent s = Some (e, r) -> (length r <= length s)%nat.
Proof.
  unfold parse_exponent. destruct s as [|c s1]; [intros [= <- <-]; lia|].
  destruct ((c =? ch "e") || (c =? ch "E")); [|intros [= <- <-]; lia].
  assert (Hsign : forall sgn s2,
            (length s2 <= length s1)%nat ->
            match span_digits s2 with
            | ([], _) => None
            | (d, r0) => Some ((sgn * Z.of_N (digits_value d))%Z, r0)
            end = Some (e, r) -> (length r <= length (c :: s1))%nat).
  { intros sgn s2 Hs2. destruct (span_digits s2) as [d' r'] eqn:E.
    apply span_digits_length in E.
    destruct d'; [discriminate|]. intros [= <- <-]. simpl. lia. }
  destruct s1 as [|c' s'].
  - apply Hsign. lia.
  - destruct (c' =? ch "+"); [apply Hsign; simpl; lia|].
    destruct (c' =? ch "-"); apply Hsign; simpl; lia.
Qed.

Lemma parse_number_length s n r :
  parse_number s = Some (n, r) -> (length r < length s)%nat.
Proof.
  unfold parse_number.
  assert (Hbody : forall neg s1,
            (length s1 <= length s)%nat ->
            match s1 with
            | [] => None
            | c :: s2 =>
                if is_digit c then
                  let '(int_digits, s3) :=
                    if c =? ch "0" then ([c], s2)
                    else let '(d, r) := span_digits s2 in (c :: d, r) in
                  match parse_fraction s3 with
                  | None => None
                  | Some (frac, s4) =>
                      match parse_exponent s4 with
                      | None => None
                      | Some (e, s5) =>
                          Some ({| num_neg := neg;
                                   num_mant :=
                                     digits_value (int_digits ++ frac);
                                   num_exp :=
                                     (e - Z.of_nat (length frac))%Z |}, s5)
                      end
                  end
                else None
            end = Some (n, r) -> (length r < length s)%nat).
  { intros neg s1 Hs1. destruct s1 as [|c s2]; [discriminate|].
    destruct (is_digit c); [|discriminate].
    assert (Hrest : forall int_digits s3,
              (length s3 <= length s2)%nat ->
              match parse_fraction s3 with
              | None => None
              | Some (frac, s4) =>
                  match parse_exponent s4 with
                  | None => None
                  | Some (e, s5) =>
                      Some ({| num_neg := neg;
                               num_mant := digits_value (int_digits ++ frac);
                               num_exp := (e - Z.of_nat (length frac))%Z |},
                            s5)
                  end
              end = Some (n, r) -> (length r < length s)%nat).
    { intros int_digits s3 Hs3.
      destruct (parse_fraction s3) as [[frac s4]|] eqn:Ef; [|discriminate].
      destruct (parse_exponent s4) as [[e s5]|] eqn:Ee; [|discriminate].
      apply parse_fraction_length in Ef. apply parse_exponent_length in Ee.
      intros [= <- <-]. simpl in Hs1. lia. }
    destruct (c =? ch "0"); [apply Hrest; lia|].
    destruct (span_digits s2) as [d r'] eqn:E.
    apply span_digits_length in E. apply Hrest. exact E. }
  destruct s as [|c s']; [exact (Hbody false [] (le_n _))|].
  destruct (c =? ch "-").
  - apply (Hbody true s'). simpl. lia.
  - apply (Hbody false (c :: s')). lia.
Qed.

Lemma strip_prefix_length p : forall s r,
  strip_prefix p s = Some r -> (length r + length p = length s)%nat.
Proof.
  induction p as [|a p IH]; intros s r; cbn [strip_prefix].
  - intros [= <-]. simpl. lia.
  - destruct s as [|c s]; [discriminate|].
    destruct (c =? a); [|discriminate].
    intros H. apply IH in H. simpl. lia.
Qed.

Lemma parse_literal_length s v r :
  parse_literal s = POk v r -> (length r < length s)%nat.
Proof.
  unfold parse_literal.
  destruct (strip_prefix (codes "true") s) as [r1|] eqn:E1.
  { intros [= <- <-]. apply strip_prefix_length in E1. simpl in E1. lia. }
  destruct (strip_prefix (codes "false") s) as [r2|] eqn:E2.
  { intros [= <- <-]. apply strip_prefix_length in E2. simpl in E2. lia. }
  destruct (strip_prefix (codes "null") s) as [r3|] eqn:E3.
  { intros [= <- <-]. apply strip_prefix_length in E3. simpl in E3. lia. }
  destruct (parse_number s) as [[n r4]|] eqn:E4; [|discriminate].
  intros [= <- <-]. exact (parse_number_length _ _ _ E4).
Qed.

(** A parsed value, element list or member list takes at least one code
    unit of the input. *)
Lemma parse_shrinks n :
  (forall s v r, parse_value n s = POk v r -> (length r < length s)%nat)
  /\ (forall s vs r,
        parse_elements n s = POk vs r -> (length r < length s)%nat)
  /\ (forall s ms r,
        parse_members n s = POk ms r -> (length r < length s)%nat).
Proof.
  induction n as [|n (IHv & IHe & IHm)]; [repeat split; discriminate|].
  repeat split; intros s x r H;
    cbn [parse_value parse_elements parse_members] in H.
  - destruct s as [|c s1]; [discriminate|].
    pose proof (skip_ws_length s1) as Hskip.
    destruct (c =? ch "{"); [|destruct (c =? ch "[")].
    + destruct (skip_ws s1) as [|c' s2]; [discriminate|].
      destruct (c' =? ch "}"); [injection H as <- <-; simpl in *; lia|].
      destruct (parse_members n (c' :: s2)) as [ms r'| |] eqn:E;
        try discriminate.
      injection H as <- <-. apply IHm in E. simpl in *. lia.
    + destruct (skip_ws s1) as [|c' s2]; [discriminate|].
      destruct (c' =? ch "]"); [injection H as <- <-; simpl in *; lia|].
      destruct (parse_elements n (c' :: s2)) as [vs r'| |] eqn:E;
        try discriminate.
      injection H as <- <-. apply IHe in E. simpl in *. lia.
    + destruct (c =? 34).
      * destruct (parse_chars s1) as [[str r']|] eqn:E; [|discriminate].
        injection H as <- <-. apply parse_chars_length in E. simpl. lia.
      * exact (parse_literal_length _ _ _ H).
  - destruct (parse_value n s) as [v r1| |] eqn:Ev; try discriminate.
    apply IHv in Ev. pose proof (skip_ws_length r1) as Hskip.
    destruct (skip_ws r1) as [|c r2]; [discriminate|].
    destruct (c =? ch ",").
    + pose proof (skip_ws_length r2) as Hskip2.
      destruct (parse_elements n (skip_ws r2)) as [vs r3| |] eqn:Ee;
        try discriminate.
      injection H as <- <-. apply IHe in Ee. simpl in *. lia.
    + destruct (c =? ch "]"); [|discriminate].
      injection H as <- <-. simpl in *. lia.
  - destruct s as [|c s1]; [discriminate|].
    destruct (c =? 34); [|discriminate].
    destruct (parse_chars s1) as [[k r0]|] eqn:Ek; [|discriminate].
    apply parse_chars_length in Ek. pose proof (skip_ws_length r0) as Hskip.
    destruct (skip_ws r0) as [|c1 r1]; [discriminate|].
    destruct (c1 =? ch ":"); [|discriminate].
    pose proof (skip_ws_length r1) as Hskip1.
    destruct (parse_value n (skip_ws r1)) as [v r2| |] eqn:Ev;
      try discriminate.
    apply IHv in Ev. pose proof (skip_ws_length r2) as Hskip2.
    destruct (skip_ws r2) as [|c2 r3]; [discriminate|].
    destruct (c2 =? ch ",").
    + pose proof (skip_ws_length r3) as Hskip3.
      destruct (parse_members n (skip_ws r3)) as [ms r4| |] eqn:Em;
        try discriminate.
      injection H as <- <-. apply IHm in Em. simpl in *. lia.
    + destruct (c2 =? ch "}"); [|discriminate].
      injection H as <- <-. simpl in *. lia.
Qed.

(** With twice the length of the input as fuel, and a little more, the
    parser never stops for lack of fuel. *)
Lemma parse_fuel n :
  (forall s, (2 * length s + 1 <= n)%nat -> parse_value n s <> PFuel)
  /\ (forall s, (2 * length s + 2 <= n)%nat -> parse_elements n s <> PFuel)
  /\ (forall s, (2 * length s + 2 <= n)%nat -> parse_members n s <> PFuel).
Proof.
  induction n as [|n (IHv & IHe & IHm)]; [repeat split; intros; lia|].
  destruct (parse_shrinks n) as (Sv & Se & Sm).
  repeat split; intros s Hn;
    cbn [parse_value parse_elements parse_members].
  - destruct s as [|c s1]; [discriminate|]. cbn [length] in Hn.
    pose proof (skip_ws_length s1) as Hskip.
    destruct (c =? ch "{"); [|destruct (c =? ch "[")].
    + destruct (skip_ws s1) as [|c' s2] eqn:E; [discriminate|].
      destruct (c' =? ch "}"); [discriminate|].
      specialize (IHm (c' :: s2)).
      destruct (parse_members n (c' :: s2)); try discriminate.
      exfalso. apply IHm; [lia|reflexivity].
    + destruct (skip_ws s1) as [|c' s2] eqn:E; [discriminate|].
      destruct (c' =? ch "]"); [discriminate|].
      specialize (IHe (c' :: s2)).
      destruct (parse_elements n (c' :: s2)); try discriminate.
      exfalso. apply IHe; [lia|reflexivity].
    + destruct (c =? 34).
      * destruct (parse_chars s1) as [[str r']|]; discriminate.
      * unfold parse_literal.
        repeat match goal with
          | |- context [match ?o with Some _ => _ | None => _ end] =>
              destruct o as [?|]
          | |- context [let '(_, _) := ?x in _] => destruct x
          end; discriminate.
  - specialize (IHv s).
    destruct (parse_value n s) as [v r1| |] eqn:Ev;
      [|discriminate|exfalso; apply IHv; [lia|reflexivity]].
    apply Sv in Ev. pose proof (skip_ws_length r1) as Hskip.
    destruct (skip_ws r1) as [|c r2]; [discriminate|].
    destruct (c =? ch ",").
    + pose proof (skip_ws_length r2) as Hskip2.
      specialize (IHe (skip_ws r2)).
      destruct (parse_elements n (skip_ws r2)); try discriminate.
      apply IHe. simpl in *. lia.
    + destruct (c =? ch "]"); discriminate.
  - destruct s as [|c s1]; [discriminate|]. cbn [length] in Hn.
    destruct (c =? 34); [|discriminate].
    destruct (parse_chars s1) as [[k r0]|] eqn:Ek; [|discriminate].
    apply parse_chars_length in Ek. pose proof (skip_ws_length r0) as Hskip.
    destruct (skip_ws r0) as [|c1 r1]; [discriminate|].
    destruct (c1 =? ch ":"); [|discriminate].
    pose proof (skip_ws_length r1) as Hskip1.
    specialize (IHv (skip_ws r1)).
    destruct (parse_value n (skip_ws r1)) as [v r2| |] eqn:Ev;
      [|discriminate|exfalso; apply IHv; [simpl in *; lia|reflexivity]].
    apply Sv in Ev. pose proof (skip_ws_length r2) as Hskip2.
    destruct (skip_ws r2) as [|c2 r3]; [discriminate|].
    destruct (c2 =? ch ",").
    + pose proof (skip_ws_length r3) as Hskip3.
      specialize (IHm (skip_ws r3)).
      destruct (parse_members n (skip_ws r3)); try discriminate.
      apply IHm. simpl in *. lia.
    + destruct (c2 =? ch "}"); discriminate.
Qed.

Lemma parse_value_step n s :
  parse_value (S n) s =
    match s with
    | [] => PSyntax
    | c :: s1 =>
        if c =? ch "{" then
          match skip_ws s1 with
          | c' :: s2 =>
              if c' =? ch "}" then POk (JObj []) s2
              else match parse_members n (c' :: s2) with
                   | POk ms r => POk (JObj ms) r
                   | PSyntax => PSyntax
                   | PFuel => PFuel
                   end
          | [] => PSyntax
          end
        else if c =? ch "[" then
          match skip_ws s1 with
          | c' :: s2 =>
              if c' =? ch "]" then POk (JArr []) s2
              else match parse_elements n (c' :: s2) with
                   | POk vs r => POk (JArr vs) r
                   | PSyntax => PSyntax
                   | PFuel => PFuel
                   end
          | [] => PSyntax
          end
        else if c =? 34 then
          match parse_chars s1 with
          | Some (str, r) => POk (JStr str) r
          | None => PSyntax
          end
        else parse_literal s
    end.
Proof. reflexivity. Qed.

Lemma parse_elements_step n s :
  parse_elements (S n) s =
    match parse_value n s with
    | POk v r =>
        match skip_ws r with
        | c :: r1 =>
            if c =? ch "," then
              match parse_elements n (skip_ws r1) with
              | POk vs r2 => POk (v :: vs) r2
              | PSyntax => PSyntax
              | PFuel => PFuel
              end
            else if c =? ch "]" then POk [v] r1
            else PSyntax
        | [] => PSyntax
        end
    | PSyntax => PSyntax
    | PFuel => PFuel
    end.
Proof. reflexivity. Qed.

Lemma parse_members_step n s :
  parse_members (S n) s =
    match s with
    | c :: s1 =>
        if c =? 34 then
          match parse_chars s1 with
          | Some (key, r) =>
              match skip_ws r with
              | c1 :: r1 =>
                  if c1 =? ch ":" then
                    match parse_value n (skip_ws r1) with
                    | POk v r2 =>
                        match skip_ws r2 with
                        | c2 :: r3 =>
                            if c2 =? ch "," then
                              match parse_members n (skip_ws r3) with
                              | POk ms r4 => POk ((key, v) :: ms) r4
                              | PSyntax => PSyntax
                              | PFuel => PFuel
                              end
                            else if c2 =? ch "}" then POk [(key, v)] r3
                            else PSyntax
                        | [] => PSyntax
                        end
                    | PSyntax => PSyntax
                    | PFuel => PFuel
                    end
                  else PSyntax
              | [] => PSyntax
              end
          | None => PSyntax
          end
        else PSyntax
    | [] => PSyntax
    end.
Proof. reflexivity. Qed.

(** A result other than "no fuel left" does not depend on the fuel. *)
Lemma parse_more_fuel n :
  (forall s, parse_value n s <> PFuel ->
             parse_value (S n) s = parse_value n s)
  /\ (forall s, parse_elements n s <> PFuel ->
                parse_elements (S n) s = parse_elements n s)
  /\ (forall s, parse_members n s <> PFuel ->
                parse_members (S n) s = parse_members n s).
Proof.
  induction n as [|n (IHv & IHe & IHm)];
    [repeat split; intros s H; exfalso; apply H; reflexivity|].
  repeat split; intros s.
  - rewrite (parse_value_step (S n)), (parse_value_step n).
    destruct s as [|c s1]; [reflexivity|].
    destruct (c =? ch "{"); [|destruct (c =? ch "[")]; [| |reflexivity].
    + destruct (skip_ws s1) as [|c' s2]; [reflexivity|].
      destruct (c' =? ch "}"); [reflexivity|].
      specialize (IHm (c' :: s2)).
      destruct (parse_members n (c' :: s2));
        [rewrite IHm by discriminate; reflexivity
        |rewrite IHm by discriminate; reflexivity
        |intros H; exfalso; apply H; reflexivity].
    + destruct (skip_ws s1) as [|c' s2]; [reflexivity|].
      destruct (c' =? ch "]"); [reflexivity|].
      specialize (IHe (c' :: s2)).
      destruct (parse_elements n (c' :: s2));
        [rewrite IHe by discriminate; reflexivity
        |rewrite IHe by discriminate; reflexivity
        |intros H; exfalso; apply H; reflexivity].
  - rewrite (parse_elements_step (S n)), (parse_elements_step n).
    specialize (IHv s).
    destruct (parse_value n s) as [v r1| |];
      [rewrite IHv by discriminate
      |rewrite IHv by discriminate; reflexivity
      |intros H; exfalso; apply H; reflexivity].
    destruct (skip_ws r1) as [|c r2]; [reflexivity|].
    destruct (c =? ch ","); [|reflexivity].
    specialize (IHe (skip_ws r2)).
    destruct (parse_elements n (skip_ws r2));
      [rewrite IHe by discriminate; reflexivity
      |rewrite IHe by discriminate; reflexivity
      |intros H; exfalso; apply H; reflexivity].
  - rewrite (parse_members_step (S n)), (parse_members_step n).
    destruct s as [|c s1]; [reflexivity|].
    destruct (c =? 34); [|reflexivity].
    destruct (parse_chars s1) as [[k r0]|]; [|reflexivity].
    destruct (skip_ws r0) as [|c1 r1]; [reflexivity|].
    destruct (c1 =? ch ":"); [|reflexivity].
    specialize (IHv (skip_ws r1)).
    destruct (parse_value n (skip_ws r1)) as [v r2| |];
      [rewrite IHv by discriminate
      |rewrite IHv by discriminate; reflexivity
      |intros H; exfalso; apply H; reflexivity].
    destruct (skip_ws r2) as [|c2 r3]; [reflexivity|].
    destruct (c2 =? ch ","); [|reflexivity].
    specialize (IHm (skip_ws r3)).
    destruct (parse_members n (skip_ws r3));
      [rewrite IHm by discriminate; reflexivity
      |rewrite IHm by discriminate; reflexivity
      |intros H; exfalso; apply H; reflexivity].
Qed.

(** [JSON_parse] runs its parser with enough fuel: the parser does not
    stop for lack of it, and any larger amount gives the same result. *)
Lemma JSON_parse_fuel s extra :
  parse_value (2 * length s + 2) (skip_ws s) <> PFuel
  /\ parse_value (2 * length s + 2 + extra) (skip_ws s)
     = parse_value (2 * length s + 2) (skip_ws s).
Proof.
  assert (H : parse_value (2 * length s + 2) (skip_ws s) <> PFuel).
  { apply (parse_fuel (2 * length s + 2)).
    pose proof (skip_ws_length s). lia. }
  split; [exact H|].
  induction extra as [|extra IH]; [rewrite Nat.add_0_r; reflexivity|].
  rewrite Nat.add_succ_r.
  rewrite (proj1 (parse_more_fuel _)); [exact IH|].
  rewrite IH. exact H.
Qed.

(** * JSON.parse on a well-formed response *)

Lemma skip_ws_blank w s :
  blank w = true -> head_not_ws s -> skip_ws (w ++ s) = s.
Proof.
  intros Hw Hs. induction w as [|c w IH].
  - destruct s as [|c s]; [reflexivity|]. cbn in Hs |- *.
    rewrite Hs. reflexivity.
  - cbn [blank forallb] in Hw. apply andb_prop in Hw as [Hc Hw].
    cbn [app skip_ws]. rewrite Hc. apply IH. exact Hw.
Qed.

Lemma parse_chars_plain str rest :
  forallb plain str = true ->
  parse_chars (str ++ 34 :: rest) = Some (str, rest).
Proof.
  induction str as [|c str IH]; [reflexivity|].
  cbn [forallb]. intros H. apply andb_prop in H as [Hc Hstr].
  apply plain_spec in Hc as (H32 & H34 & H92 & _).
  cbn [app parse_chars]. change (ch "\") with 92.
  apply N.eqb_neq in H34, H92. rewrite H34, H92.
  destruct (c <? 32) eqn:E; [apply N.ltb_lt in E; lia|].
  rewrite (IH Hstr). reflexivity.
Qed.

(** A string literal that is read up to the end of a text is read the same
    way when more text follows, and a closing bracket in it stands for
    itself. *)
Lemma push_some u o sym r :
  push u o = Some (sym, r) ->
  exists sym', sym = u :: sym' /\ o = Some (sym', r).
Proof.
  destruct o as [[sym' r']|]; [|discriminate]. cbn [push].
  intros [= <- <-]. exists sym'. auto.
Qed.

Lemma hex_digit_not_closing c v : hex_digit c = Some v -> not_closing c = true.
Proof.
  unfold hex_digit, is_digit, not_closing.
  change (ch "a") with 97. change (ch "f") with 102.
  change (ch "A") with 65. change (ch "F") with 70. change (ch "]") with 93.
  intros H. apply negb_true_iff, N.eqb_neq. intros ->.
  vm_compute in H. discriminate.
Qed.

Lemma hex4_not_closing h1 h2 h3 h4 u :
  hex4 h1 h2 h3 h4 = Some u ->
  not_closing h1 = true /\ not_closing h2 = true
  /\ not_closing h3 = true /\ not_closing h4 = true.
Proof.
  unfold hex4.
  destruct (hex_digit h1) eqn:E1; [|discriminate].
  destruct (hex_digit h2) eqn:E2; [|discriminate].
  destruct (hex_digit h3) eqn:E3; [|discriminate].
  destruct (hex_digit h4) eqn:E4; [|discriminate].
  intros _. repeat split; eapply hex_digit_not_closing; eassumption.
Qed.

Lemma simple_escape_not_closing e u :
  simple_escape e = Some u -> not_closing e = true.
Proof.
  unfold not_closing. change (ch "]") with 93.
  intros H. apply negb_true_iff, N.eqb_neq. intros ->.
  vm_compute in H. discriminate.
Qed.

Lemma parse_chars_whole n : forall w sym,
  (length w <= n)%nat ->
  parse_chars (w ++ [34]) = Some (sym, []) ->
  (forall rest, parse_chars (w ++ 34 :: rest) = Some (sym, rest))
  /\ (forallb not_closing sym = true -> forallb not_closing w = true).
Proof.
  induction n as [|n IH]; intros w sym Hn H.
  - destruct w; [|simpl in Hn; lia]. cbn in H. injection H as <-.
    split; reflexivity.
  - destruct w as [|c w1].
    { cbn in H. injection H as <-. split; reflexivity. }
    cbn [app parse_chars] in H |- *. cbn [length] in Hn.
    destruct (c =? 34) eqn:E34.
    { injection H as _ H. destruct w1; discriminate. }
    destruct (c =? ch "\") eqn:E92.
    + assert (Hc : not_closing c = true).
      { apply N.eqb_eq in E92. subst c. reflexivity. }
      destruct w1 as [|e w2]; cbn [app] in H |- *.
      { change (34 =? ch "u") with false in H. cbn in H. discriminate. }
      cbn [length] in Hn.
      destruct (e =? ch "u") eqn:Eu.
      * assert (He : not_closing e = true).
        { apply N.eqb_eq in Eu. subst e. reflexivity. }
        destruct w2 as [|h1 [|h2 [|h3 [|h4 w3]]]]; cbn [app] in H |- *;
          try discriminate.
        { destruct (hex4 h1 h2 h3 34); discriminate. }
        cbn [length] in Hn.
        destruct (hex4 h1 h2 h3 h4) as [u|] eqn:Eh; [|discriminate].
        apply push_some in H as (sym' & -> & H).
        apply IH in H as [Hrest Hnc]; [|lia].
        apply hex4_not_closing in Eh as (N1 & N2 & N3 & N4).
        split.
        -- intros rest. rewrite Hrest. reflexivity.
        -- cbn [forallb]. intros Hs. apply andb_prop in Hs as [_ Hs].
           rewrite Hc, He, N1, N2, N3, N4, (Hnc Hs). reflexivity.
      * destruct (simple_escape e) as [u|] eqn:Ee; [|discriminate].
        apply push_some in H as (sym' & -> & H).
        apply IH in H as [Hrest Hnc]; [|lia].
        split.
        -- intros rest. rewrite Hrest. reflexivity.
        -- cbn [forallb]. intros Hs. apply andb_prop in Hs as [_ Hs].
           rewrite Hc, (simple_escape_not_closing _ _ Ee), (Hnc Hs).
           reflexivity.
    + destruct (c <? 32); [discriminate|].
      apply push_some in H as (sym' & -> & H).
      apply IH in H as [Hrest Hnc]; [|lia].
      split.
      * intros rest. rewrite Hrest. reflexivity.
      * cbn [forallb]. intros Hs. apply andb_prop in Hs as [Hc Hs].
        rewrite Hc, (Hnc Hs). reflexivity.
Qed.

Lemma parse_chars_denotes w sym rest :
  denotes w sym = true -> parse_chars (w ++ 34 :: rest) = Some (sym, rest).
Proof.
  unfold denotes. intros H. apply bool_decide_eq_true in H.
  apply (parse_chars_whole (length w) w sym (le_n _) H).
Qed.

Lemma denotes_not_closing w sym :
  denotes w sym = true -> forallb not_closing sym = true ->
  forallb not_closing w = true.
Proof.
  unfold denotes. intros H. apply bool_decide_eq_true in H.
  apply (parse_chars_whole (length w) w sym (le_n _) H).
Qed.

Lemma parse_value_quote n s :
  parse_value (S n) (34 :: s) =
    match parse_chars s with
    | Some (str, r) => POk (JStr str) r
    | None => PSyntax
    end.
Proof. reflexivity. Qed.

Lemma parse_value_bracket n s :
  parse_value (S n) (ch "[" :: s) =
    match skip_ws s with
    | c' :: s2 =>
        if c' =? ch "]" then POk (JArr []) s2
        else match parse_elements n (c' :: s2) with
             | POk vs r => POk (JArr vs) r
             | PSyntax => PSyntax
             | PFuel => PFuel
             end
    | [] => PSyntax
    end.
Proof. reflexivity. Qed.

Lemma parse_value_brace n s :
  parse_value (S n) (ch "{" :: s) =
    match skip_ws s with
    | c' :: s2 =>
        if c' =? ch "}" then POk (JObj []) s2
        else match parse_members n (c' :: s2) with
             | POk ms r => POk (JObj ms) r
             | PSyntax => PSyntax
             | PFuel => PFuel
             end
    | [] => PSyntax
    end.
Proof. reflexivity. Qed.

Lemma parse_members_single n key s v r w rest :
  forallb plain key = true ->
  skip_ws s = ch ":" :: r ->
  parse_value n (skip_ws r) = POk v (w ++ ch "}" :: rest) ->
  blank w = true ->
  parse_members (S n) (quoted key s) = POk [(key, v)] rest.
Proof.
  intros Hkey Hs Hv Hw. unfold quoted.
  cbn [parse_members]. rewrite N.eqb_refl.
  rewrite (parse_chars_plain _ _ Hkey), Hs. rewrite N.eqb_refl, Hv.
  rewrite skip_ws_blank by (auto; reflexivity). reflexivity.
Qed.

Lemma render_items_cons i l rest :
  render_items (i :: l) rest =
    pre i ++ quoted (written i) (post i ++ elements_tail l rest).
Proof. destruct l; reflexivity. Qed.

Lemma skip_ws_render_items i l rest :
  item_ok i = true ->
  skip_ws (render_items (i :: l) rest) =
    quoted (written i) (post i ++ elements_tail l rest).
Proof.
  intros Hi. unfold item_ok in Hi. bool_to_prop.
  rewrite render_items_cons. apply skip_ws_blank; [assumption|reflexivity].
Qed.

Lemma parse_elements_render l : forall i n rest,
  item_ok i = true -> forallb item_ok l = true ->
  (length l + 2 <= n)%nat ->
  parse_elements n
    (quoted (written i) (post i ++ elements_tail l (ch "]" :: rest)))
  = POk (map JStr (symbols (i :: l))) rest.
Proof.
  induction l as [|i' l IH]; intros i n rest Hi Hl Hn;
    (destruct n as [|[|n]]; [simpl in Hn; lia|simpl in Hn; lia|]);
    pose proof Hi as Hi'; unfold item_ok in Hi'; bool_to_prop;
    rewrite parse_elements_step; unfold quoted at 1;
    rewrite parse_value_quote, (parse_chars_denotes _ (symbol i)) by assumption.
  - cbn [elements_tail].
    rewrite skip_ws_blank by (auto; reflexivity). reflexivity.
  - cbn [forallb] in Hl. apply andb_prop in Hl as [Hi'' Hl].
    unfold elements_tail.
    rewrite skip_ws_blank by (auto; reflexivity).
    rewrite N.eqb_refl.
    rewrite skip_ws_render_items by assumption.
    rewrite IH by (auto; simpl in Hn; lia). reflexivity.
Qed.

Lemma parse_array_render L l n rest :
  layout_ok L = true -> forallb item_ok l = true ->
  (length l + 2 <= n)%nat ->
  parse_value n (render_array L l rest) = POk (JArr (map JStr (symbols l))) rest.
Proof.
  intros HL Hl Hn. unfold layout_ok in HL. bool_to_prop.
  destruct n as [|n]; [lia|].
  unfold render_array. rewrite parse_value_bracket.
  destruct l as [|i l].
  - rewrite skip_ws_blank by (auto; reflexivity). reflexivity.
  - cbn [forallb] in Hl. apply andb_prop in Hl as [Hi Hl].
    rewrite skip_ws_render_items by assumption.
    unfold quoted at 1. change (34 =? ch "]") with false. cbv iota.
    change (34 :: written i ++ 34 :: ?r) with (quoted (written i) r).
    rewrite parse_elements_render by (auto; simpl in Hn; lia).
    reflexivity.
Qed.

Lemma parse_object_render L l n rest :
  layout_ok L = true -> forallb item_ok l = true ->
  (length l + 4 <= n)%nat ->
  parse_value n (render_then L l rest)
  = POk (JObj [(codes "chordSuggestions", JArr (map JStr (symbols l)))]) rest.
Proof.
  intros HL Hl Hn. pose proof HL as HL'. unfold layout_ok in HL'.
  bool_to_prop.
  destruct n as [|[|n]]; [lia|lia|].
  unfold render_then. rewrite parse_value_brace.
  rewrite skip_ws_blank by (auto; reflexivity).
  unfold quoted at 1. change (34 =? ch "}") with false. cbv iota.
  change (34 :: codes "chordSuggestions" ++ 34 :: ?r)
    with (quoted (codes "chordSuggestions") r).
  erewrite parse_members_single; [reflexivity|reflexivity| | |eassumption].
  - apply skip_ws_blank; [assumption|reflexivity].
  - rewrite skip_ws_blank by (auto; unfold render_array; reflexivity).
    apply parse_array_render; auto. lia.
Qed.

Lemma render_items_length l rest :
  (length l <= length (render_items l rest))%nat.
Proof.
  induction l as [|i l IH]; [simpl; lia|].
  rewrite render_items_cons. unfold quoted, elements_tail.
  rewrite length_app. cbn [length]. rewrite length_app. cbn [length].
  rewrite length_app. destruct l as [|i' l].
  - simpl. lia.
  - cbn [length] in *. lia.
Qed.

Lemma render_then_length L l rest :
  (length l + 1 <= length (render_then L l rest))%nat.
Proof.
  unfold render_then, quoted, render_array. cbn [length].
  rewrite length_app. cbn [length]. rewrite length_app. cbn [length].
  rewrite length_app. cbn [length]. rewrite length_app. cbn [length].
  destruct l as [|i l]; [simpl; lia|].
  pose proof (render_items_length (i :: l)
                (ch "]" :: before_brace L ++ [ch "}"])).
  cbn [length] in *. replace rest with ([] ++ rest) by reflexivity.
  pose proof (render_items_length (i :: l)
                (ch "]" :: before_brace L ++ ch "}" :: [] ++ rest)).
  cbn [length] in *. lia.
Qed.

(** [JSON.parse] of a well-formed response is the object with the one member
    [chordSuggestions], an array of the symbols as strings. *)
Lemma JSON_parse_render L l :
  layout_ok L = true -> forallb item_ok l = true ->
  JSON_parse (render L l)
  = Some (JObj [(codes "chordSuggestions", JArr (map JStr (symbols l)))]).
Proof.
  intros HL Hl. unfold JSON_parse.
  replace (skip_ws (render L l)) with (render L l) by reflexivity.
  unfold render. rewrite parse_object_render; auto.
  pose proof (render_then_length L l []). lia.
Qed.

(** * Validation of a response *)

Lemma render_then_app L l rest : render_then L l rest = render L l ++ rest.
Proof.
  unfold render, render_then, quoted. rewrite !render_array_body.
  list_norm. reflexivity.
Qed.

(** A well-formed object is what the pattern extracts from a text, when
    no match starts in the text before it. *)
Lemma regex_match_embedded prefix suffix L l :
  layout_ok L = true -> forallb item_ok l = true ->
  no_earlier_match RESPONSE_PATTERN prefix (render L l ++ suffix) = true ->
  regex_match RESPONSE_PATTERN (prefix ++ render L l ++ suffix)
  = Some (render L l).
Proof.
  intros HL Hl Hpre. unfold regex_match. apply search_first.
  - exact Hpre.
  - rewrite <- render_then_app. apply response_pattern_here; assumption.
Qed.

(** A text without an opening brace holds no match. *)
Lemma no_brace_no_match total prefix rest :
  forallb (fun c => negb (c =? ch "{")) prefix = true ->
  no_match_inside total RESPONSE_PATTERN prefix rest = true.
Proof.
  induction prefix as [|c prefix IH]; [reflexivity|].
  cbn [forallb]. intros H. apply andb_prop in H as [Hc Hprefix].
  apply negb_true_iff in Hc.
  cbn [no_match_inside app].
  unfold match_here, RESPONSE_PATTERN, OPENING.
  cbn [run chr cls_mem existsb item_mem]. rewrite Hc. cbn [orb].
  exact (IH Hprefix).
Qed.

Lemma no_brace_no_earlier_match prefix rest :
  forallb (fun c => negb (c =? ch "{")) prefix = true ->
  no_earlier_match RESPONSE_PATTERN prefix rest = true.
Proof. apply no_brace_no_match. Qed.

Lemma lookup_member_single k v :
  lookup_member k [(k, v)] = Some v.
Proof.
  cbn [lookup_member]. destruct (decide (k = k)); [reflexivity|congruence].
Qed.

Lemma check_chords_conform cs :
  forallb conforms cs = true -> check_chords (map JStr cs) = Returns tt.
Proof.
  induction cs as [|c cs IH]; [reflexivity|].
  cbn [forallb map check_chords]. intros H. apply andb_prop in H as [Hc Hcs].
  unfold conforms in Hc.
  destruct (regex_match CHORD_PATTERN c); [|discriminate]. exact (IH Hcs).
Qed.


(** Validation once the array has been extracted: the count, then the
    symbols in order. *)
Lemma parse_extracted text m0 parsed elements :
  regex_match RESPONSE_PATTERN text = Some m0 ->
  JSON_parse m0 = Some parsed ->
  get_chordSuggestions parsed = Returns (VJson (JArr elements)) ->
  parseChordSuggestions text =
    if (length elements =? NUM_SUGGESTIONS)%nat
    then match check_chords elements with
         | Throws e => Throws e
         | Returns _ => Returns (VJson (JArr elements))
         end
    else Throws (InvalidCount (VLength (length elements))).
Proof.
  intros Hm Hp Hc. unfold parseChordSuggestions.
  rewrite Hm, Hp, Hc. cbn [get_length differs_from_NUM_SUGGESTIONS iterate].
  destruct (length elements =? NUM_SUGGESTIONS)%nat; reflexivity.
Qed.

Lemma parse_embedded prefix suffix L l :
  layout_ok L = true -> forallb item_ok l = true ->
  no_earlier_match RESPONSE_PATTERN prefix (render L l ++ suffix) = true ->
  parseChordSuggestions (prefix ++ render L l ++ suffix) =
    if (length l =? NUM_SUGGESTIONS)%nat
    then match check_chords (map JStr (symbols l)) with
         | Throws e => Throws e
         | Returns _ => Returns (strings (symbols l))
         end
    else Throws (InvalidCount (VLength (length l))).
Proof.
  intros HL Hl Hpre.
  rewrite (parse_extracted _ (render L l)
             (JObj [(codes "chordSuggestions", JArr (map JStr (symbols l)))])
             (map JStr (symbols l))).
  - unfold symbols. rewrite !length_map. reflexivity.
  - apply regex_match_embedded; assumption.
  - apply JSON_parse_render; assumption.
  - cbn [get_chordSuggestions]. rewrite lookup_member_single. reflexivity.
Qed.

Lemma conforming_items_ok l :
  items_ok l = true -> forallb conforms (symbols l) = true ->
  forallb item_ok l = true.
Proof.
  unfold items_ok, symbols. induction l as [|i l IH]; [reflexivity|].
  cbn [forallb map]. intros H1 H2.
  apply andb_prop in H1 as [Hi Hl]. apply andb_prop in H2 as [Hc Hcs].
  unfold item_ok at 1. rewrite Hi, (IH Hl Hcs).
  apply andb_prop in Hi as [_ Hi].
  rewrite (denotes_not_closing _ _ Hi); [reflexivity|].
  pose proof (conforms_plain _ Hc) as Hplain. revert Hplain.
  apply forallb_weaken. exact plain_not_closing.
Qed.

(** Twelve symbols that conform, in a well-formed object, come back as
    they are, from a text with no earlier match. *)
Lemma parse_embedded_conforming prefix suffix L l :
  layout_ok L = true -> items_ok l = true ->
  length l = NUM_SUGGESTIONS ->
  forallb conforms (symbols l) = true ->
  no_earlier_match RESPONSE_PATTERN prefix (render L l ++ suffix) = true ->
  parseChordSuggestions (prefix ++ render L l ++ suffix)
  = Returns (strings (symbols l)).
Proof.
  intros HL Hl Hlen Hc Hpre.
  rewrite parse_embedded by auto using conforming_items_ok.
  rewrite Hlen, Nat.eqb_refl, check_chords_conform by exact Hc.
  reflexivity.
Qed.

Lemma parse_conforming L l :
  layout_ok L = true -> items_ok l = true ->
  length l = NUM_SUGGESTIONS ->
  forallb conforms (symbols l) = true ->
  parseChordSuggestions (render L l) = Returns (strings (symbols l)).
Proof.
  intros HL Hl Hlen Hc.
  pose proof (parse_embedded_conforming [] [] L l HL Hl Hlen Hc eq_refl) as H.
  rewrite app_nil_l, app_nil_r in H. exact H.
Qed.

(** C5: [NaN] lies outside the range of the indices of every
    progression, and yet no operation rejects it: both comparisons of
    [validatePosition] are false for it. [addSlot(NaN)] puts an empty slot
    in front, [removeSlot(NaN)] takes the first slot away, and
    [addChord(NaN, chord)] and [removeChord(NaN)] return with the slots as
    they were. Every other number outside the range (an integer, a
    fraction, an infinity) is rejected by all four with the
    invalid-position error, which carries the number and the last valid
    index, and the progression stays as it was. *)
Theorem NaN_position_not_rejected (p : Progression) (chord : list char) :
  within_bounds NaN (chords p) = false
  /\ validatePosition NaN p = (Returns tt, p)
  /\ addSlot (Some NaN) p
     = (Returns tt, {| key := key p; chords := None :: chords p |})
  /\ removeSlot NaN p
     = (Returns tt, {| key := key p; chords := drop 1 (chords p) |})
  /\ addChord NaN chord p = (Returns tt, p)
  /\ removeChord NaN p = (Returns tt, p)
  /\ forall position : jsnum,
       position <> NaN ->
       within_bounds position (chords p) = false ->
       let e := InvalidPosition position (Z.of_nat (length (chords p)) - 1) in
       addSlot (Some position) p = (Throws e, p)
       /\ addChord position chord p = (Throws e, p)
       /\ removeSlot position p = (Throws e, p)
       /\ removeChord position p = (Throws e, p).
Proof.
  split; [reflexivity|]. split; [reflexivity|].
  split; [|split; [|split; [|split]]].
  - unfold addSlot, bind. rewrite validatePosition_NaN.
    unfold get_chords, set_chords. rewrite splice_NaN_insert. reflexivity.
  - unfold removeSlot, bind. rewrite validatePosition_NaN.
    unfold get_chords, set_chords. rewrite splice_NaN_delete. reflexivity.
  - destruct p. reflexivity.
  - destruct p. reflexivity.
  - intros position Hn H e.
    unfold addSlot, addChord, removeSlot, removeChord.
    repeat split; apply outside_throws; assumption.
Qed.

Lemma NaN_position_not_rejected_witness :
  removeSlot NaN sample_progression
  = (Returns tt, {| key := codes "A minor";
                    chords := [None; Some (codes "Dm")] |})
  /\ (let e := InvalidPosition 3 2 in
      addSlot (Some (Int 3)) sample_progression
      = (Throws e, sample_progression)
      /\ addChord 3 (codes "G") sample_progression
         = (Throws e, sample_progression)
      /\ removeSlot 3 sample_progression = (Throws e, sample_progression)
      /\ removeChord 3 sample_progression = (Throws e, sample_progression)).
Proof.
  pose proof (NaN_position_not_rejected sample_progression (codes "G"))
    as (_ & _ & _ & Hremove & _ & _ & Hother).
  split.
  - exact Hremove.
  - apply (Hother (Int 3)).
    + discriminate.
    + reflexivity.
Defined.




(** C7: for every progression, the empty one too, addSlot() returns and
    makes the sequence one longer: the slots so far keep their indices and
    values and an empty slot follows them. For every position within
    bounds, removeSlot returns and makes the sequence one shorter: the
    slots before the position stay, and every later slot moves down by one
    index. The key is untouched by both. *)
Theorem addSlot_removeSlot_shape (p : Progression) :
  (exists p1,
      addSlot None p = (Returns tt, p1)
      /\ key p1 = key p
      /\ length (chords p1) = S (length (chords p))
      /\ chords p1 = chords p ++ [None]
      /\ (forall i, (i < length (chords p))%nat ->
            chords p1 !! i = chords p !! i)
      /\ chords p1 !! length (chords p) = Some None)
  /\ (forall position : Z,
      (0 <= position < Z.of_nat (length (chords p)))%Z ->
      exists p2,
        removeSlot position p = (Returns tt, p2)
        /\ key p2 = key p
        /\ S (length (chords p2)) = length (chords p)
        /\ (forall i, (i < Z.to_nat position)%nat ->
              chords p2 !! i = chords p !! i)
        /\ (forall i, (Z.to_nat position <= i)%nat ->
              chords p2 !! i = chords p !! S i)).
Proof.
  split.
  - eexists. split; [apply addSlot_append|]. simpl.
    repeat split.
    + rewrite length_app. simpl. lia.
    + intros i Hi. apply lookup_app_l. exact Hi.
    + rewrite lookup_app_r by lia. rewrite Nat.sub_diag. reflexivity.
  - intros position H.
    eexists. split; [apply removeSlot_at; exact H|]. simpl.
    repeat split.
    + rewrite length_delete.
      * lia.
      * apply lookup_lt_is_Some. lia.
    + intros i Hi. apply list_lookup_delete_lt. exact Hi.
    + intros i Hi. apply list_lookup_delete_ge. exact Hi.
Qed.

Lemma addSlot_removeSlot_shape_witness :
  (exists p1,
      addSlot None (constructor None) = (Returns tt, p1)
      /\ key p1 = key (constructor None)
      /\ length (chords p1) = 1%nat
      /\ chords p1 = [None])
  /\ (exists p2,
      removeSlot 1 sample_progression = (Returns tt, p2)
      /\ key p2 = key sample_progression
      /\ S (length (chords p2)) = 3%nat
      /\ (forall i, (i < 1)%nat ->
            chords p2 !! i = chords sample_progression !! i)
      /\ (forall i, (1 <= i)%nat ->
            chords p2 !! i = chords sample_progression !! S i)).
Proof.
  split.
  - destruct (proj1 (addSlot_removeSlot_shape (constructor None)))
      as (p1 & Hrun & Hkey & Hlen & Hchords & _).
    exists p1. repeat split; assumption.
  - apply (proj2 (addSlot_removeSlot_shape sample_progression) 1%Z).
    simpl. lia.
Defined.

(** C8: for a position within bounds, addChord and removeChord return
    normally and change the slot at that index only: it holds the chord
    (addChord) or is empty (removeChord), every other slot is as before, and
    so are the length of the sequence and the key. *)
Theorem addChord_removeChord_frame (p : Progression) (position : Z)
    (chord : list char) :
  (0 <= position < Z.of_nat (length (chords p)))%Z ->
  (exists p1,
      addChord position chord p = (Returns tt, p1)
      /\ key p1 = key p
      /\ length (chords p1) = length (chords p)
      /\ chords p1 !! Z.to_nat position = Some (Some chord)
      /\ (forall i, i <> Z.to_nat position ->
            chords p1 !! i = chords p !! i))
  /\ (exists p2,
      removeChord position p = (Returns tt, p2)
      /\ key p2 = key p
      /\ length (chords p2) = length (chords p)
      /\ chords p2 !! Z.to_nat position = Some None
      /\ (forall i, i <> Z.to_nat position ->
            chords p2 !! i = chords p !! i)).
Proof.
  intros H. split.
  - eexists. split; [apply addChord_at; exact H|]. simpl.
    repeat split.
    + apply length_insert.
    + apply list_lookup_insert_eq. lia.
    + intros i Hi. apply list_lookup_insert_ne. congruence.
  - eexists. split; [apply removeChord_at; exact H|]. simpl.
    repeat split.
    + apply length_insert.
    + apply list_lookup_insert_eq. lia.
    + intros i Hi. apply list_lookup_insert_ne. congruence.
Qed.

Lemma addChord_removeChord_frame_witness :
  (exists p1,
      addChord 1 (codes "G") sample_progression = (Returns tt, p1)
      /\ key p1 = key sample_progression
      /\ length (chords p1) = 3%nat
      /\ chords p1 !! 1%nat = Some (Some (codes "G"))
      /\ (forall i, i <> 1%nat ->
            chords p1 !! i = chords sample_progression !! i))
  /\ (exists p2,
      removeChord 1 sample_progression = (Returns tt, p2)
      /\ key p2 = key sample_progression
      /\ length (chords p2) = 3%nat
      /\ chords p2 !! 1%nat = Some None
      /\ (forall i, i <> 1%nat ->
            chords p2 !! i = chords sample_progression !! i)).
Proof.
  apply (addChord_removeChord_frame sample_progression 1 (codes "G")).
  simpl. lia.
Defined.

(** C10: a builder constructed without argument has the key C major and no
    slot. On it addChord, removeSlot, removeChord, addSlot with a position
    and suggestChords throw the invalid-position error for every number
    other than [NaN], whatever the language model would answer, and leave
    the builder as it was. For [NaN] none of them throws that error:
    [addSlot(NaN)] gives the builder its first slot, the other three return
    with no slot, and [suggestChords(NaN)] asks the language model and
    hands on its error or validates its answer. *)
Theorem fresh_builder_accepts_NaN :
  constructor None = {| key := codes "C major"; chords := [] |}
  /\ length (chords (constructor None)) = 0%nat
  /\ (forall (position : jsnum) (chord : list char)
        (executeLLM : list char -> outcome (list char)),
        position <> NaN ->
        let fresh := constructor None in
        let e := InvalidPosition position (-1) in
        addChord position chord fresh = (Throws e, fresh)
        /\ removeSlot position fresh = (Throws e, fresh)
        /\ removeChord position fresh = (Throws e, fresh)
        /\ addSlot (Some position) fresh = (Throws e, fresh)
        /\ suggestChords executeLLM position fresh = (Throws e, fresh))
  /\ (forall (chord : list char)
        (executeLLM : list char -> outcome (list char)),
        let fresh := constructor None in
        addChord NaN chord fresh = (Returns tt, fresh)
        /\ removeSlot NaN fresh = (Returns tt, fresh)
        /\ removeChord NaN fresh = (Returns tt, fresh)
        /\ addSlot (Some NaN) fresh
           = (Returns tt, {| key := codes "C major"; chords := [None] |})
        /\ suggestChords executeLLM NaN fresh
           = (match executeLLM (createSuggestionPrompt fresh NaN) with
              | Throws e => Throws e
              | Returns text => parseChordSuggestions text
              end, fresh))
  /\ suggestChords (fun _ => Returns sample_response) NaN (constructor None)
     = (Returns (strings twelve_chords), constructor None).
Proof.
  split; [reflexivity|]. split; [reflexivity|].
  split; [|split].
  - intros position chord executeLLM Hn fresh e.
    assert (Hout : within_bounds position (chords fresh) = false).
    { subst fresh. clear.
      destruct position as [z|b shown| |negative]; simpl;
        try reflexivity; apply andb_false_iff;
        rewrite Z.leb_gt, Z.ltb_ge; lia. }
    unfold addChord, removeSlot, removeChord, addSlot, suggestChords.
    repeat split; apply (outside_throws _ fresh position Hout Hn).
  - intros chord executeLLM fresh.
    repeat split.
    unfold suggestChords, bind. rewrite validatePosition_NaN.
    destruct (executeLLM _); reflexivity.
  - vm_compute. reflexivity.
Qed.

Lemma fresh_builder_accepts_NaN_witness :
  let fresh := constructor None in
  let e := InvalidPosition 0 (-1) in
  addChord 0 (codes "C") fresh = (Throws e, fresh)
  /\ removeSlot 0 fresh = (Throws e, fresh)
  /\ removeChord 0 fresh = (Throws e, fresh)
  /\ addSlot (Some (Int 0)) fresh = (Throws e, fresh)
  /\ suggestChords (fun _ => Returns sample_response) 0 fresh
     = (Throws e, fresh).
Proof.
  pose proof fresh_builder_accepts_NaN as (_ & _ & Hother & _).
  apply (Hother (Int 0) (codes "C") (fun _ => Returns sample_response)).
  discriminate.
Defined.

(** C1, as the claim states it, fails: a response that holds the
    well-formed object of the twelve conforming chords after a text in
    which the response pattern matches earlier is not answered with the
    twelve chords; the earlier match is taken and validation throws. *)
Lemma contained_object_not_returned :
  suggestChords (fun _ => Returns sample_response) 1 sample_progression
  = (Returns (strings twelve_chords), sample_progression)
  /\ suggestChords (fun _ => Returns (echoed_format ++ sample_response)) 1
       sample_progression
     = (Throws (InvalidCount (VLength 1)), sample_progression).
Proof. split; vm_compute; reflexivity. Qed.

(** C1, amended: when the answer of the language model holds a well-formed
    object whose twelve elements conform to the chord pattern, with any
    text before and after it, and the response pattern matches at no
    position of the answer before the object, suggestChords at a valid
    position returns the array of the twelve elements, the same elements
    in the same order, and leaves the progression as it was;
    parseChordSuggestions returns it from the text. The object may hold
    any white space of JSON between its tokens, and each element is any
    string literal of JSON for its symbol. *)
Theorem well_formed_response_returned
    (executeLLM : list char -> outcome (list char)) (p : Progression)
    (position : Z) (prefix suffix : list char) (L : layout)
    (l : list item) :
  (0 <= position < Z.of_nat (length (chords p)))%Z ->
  layout_ok L = true ->
  items_ok l = true ->
  length l = NUM_SUGGESTIONS ->
  forallb conforms (symbols l) = true ->
  no_earlier_match RESPONSE_PATTERN prefix (render L l ++ suffix) = true ->
  executeLLM (createSuggestionPrompt p position)
  = Returns (prefix ++ render L l ++ suffix) ->
  parseChordSuggestions (prefix ++ render L l ++ suffix)
  = Returns (strings (symbols l))
  /\ suggestChords executeLLM position p
     = (Returns (strings (symbols l)), p).
Proof.
  intros Hpos HL Hl Hlen Hc Hpre Hllm.
  pose proof (parse_embedded_conforming prefix suffix L l HL Hl Hlen Hc Hpre)
    as Hparse.
  split; [exact Hparse|].
  unfold suggestChords. rewrite guarded_runs by exact Hpos.
  rewrite Hllm, Hparse. reflexivity.
Qed.

Lemma well_formed_response_returned_witness :
  parseChordSuggestions (codes "Sure: " ++ sample_response ++ codes " Enjoy!")
  = Returns (strings twelve_chords)
  /\ suggestChords
       (fun _ => Returns (codes "Sure: " ++ sample_response
                          ++ codes " Enjoy!"))
       1 sample_progression
     = (Returns (strings twelve_chords), sample_progression).
Proof.
  apply (well_formed_response_returned
           (fun _ => Returns (codes "Sure: " ++ sample_response
                              ++ codes " Enjoy!"))
           sample_progression 1 (codes "Sure: ") (codes " Enjoy!")
           spaced sample_items).
  - simpl. lia.
  - reflexivity.
  - reflexivity.
  - reflexivity.
  - vm_compute. reflexivity.
  - vm_compute. reflexivity.
  - reflexivity.
Defined.

(** C2: when the array that is extracted from the response has a length
    other than 12, validation throws the error that cites that length, an
    error of the response; nothing is returned, so nothing is cut or
    filled up to 12. *)
Theorem wrong_count_rejected (text m0 : list char) (parsed : json)
    (elements : list json) :
  regex_match RESPONSE_PATTERN text = Some m0 ->
  JSON_parse m0 = Some parsed ->
  get_chordSuggestions parsed = Returns (VJson (JArr elements)) ->
  length elements <> NUM_SUGGESTIONS ->
  parseChordSuggestions text
  = Throws (InvalidCount (VLength (length elements)))
  /\ is_invalid_response (InvalidCount (VLength (length elements))) = true.
Proof.
  intros Hm Hp Hc Hlen. split; [|reflexivity].
  rewrite (parse_extracted text m0 parsed elements Hm Hp Hc).
  apply Nat.eqb_neq in Hlen. rewrite Hlen. reflexivity.
Qed.

Lemma wrong_count_rejected_witness :
  parseChordSuggestions eleven_response = Throws (InvalidCount (VLength 11))
  /\ is_invalid_response (InvalidCount (VLength 11)) = true.
Proof.
  apply (wrong_count_rejected eleven_response eleven_response
           (JObj [(codes "chordSuggestions",
                   JArr (map JStr (take 11 twelve_chords)))])
           (map JStr (take 11 twelve_chords))).
  - vm_compute. reflexivity.
  - vm_compute. reflexivity.
  - vm_compute. reflexivity.
  - simpl. unfold NUM_SUGGESTIONS. lia.
Defined.

Example thirteen_rejected :
  parseChordSuggestions thirteen_response
  = Throws (InvalidCount (VLength 13)).
Proof. vm_compute. reflexivity. Qed.




(** C4, as the claim states it, fails: the object of twelve conforming
    chords is valid on its own, but inside prose that holds an earlier match
    of the pattern the earlier match is extracted, and validation throws. *)
Lemma object_after_earlier_match_missed :
  parseChordSuggestions (render compact (map bare twelve_chords))
  = Returns (strings twelve_chords)
  /\ parseChordSuggestions
       (echoed_format ++ render compact (map bare twelve_chords)
        ++ js " Enjoy!")
     = Throws (InvalidCount (VLength 1)).
Proof. split; vm_compute; reflexivity. Qed.

(** C4, amended: when a well-formed object of twelve conforming chords
    stands inside a text, prose or a markdown fence before it and anything
    after it, and the response pattern matches at no position of the text
    before the object, validation returns the twelve chords in order. *)
Theorem embedded_object_extracted (prefix suffix : list char) (L : layout)
    (l : list item) :
  layout_ok L = true ->
  items_ok l = true ->
  length l = NUM_SUGGESTIONS ->
  forallb conforms (symbols l) = true ->
  no_earlier_match RESPONSE_PATTERN prefix (render L l ++ suffix) = true ->
  regex_match RESPONSE_PATTERN (prefix ++ render L l ++ suffix)
  = Some (render L l)
  /\ parseChordSuggestions (prefix ++ render L l ++ suffix)
     = Returns (strings (symbols l)).
Proof.
  intros HL Hl Hlen Hc Hpre. split.
  - apply regex_match_embedded; auto using conforming_items_ok.
  - apply parse_embedded_conforming; assumption.
Qed.

Lemma embedded_object_extracted_witness :
  regex_match RESPONSE_PATTERN (fence_open ++ sample_response ++ fence_close)
  = Some sample_response
  /\ parseChordSuggestions (fence_open ++ sample_response ++ fence_close)
     = Returns (strings twelve_chords).
Proof.
  apply (embedded_object_extracted fence_open fence_close spaced
           sample_items).
  - reflexivity.
  - reflexivity.
  - reflexivity.
  - vm_compute. reflexivity.
  - vm_compute. reflexivity.
Defined.

(** C9: a well-formed response whose twelve conforming chords are not all
    different is not rejected: validation returns the array as it is, in
    order and with the repeated entries. *)
Theorem duplicates_not_rejected (L : layout) (l : list item) :
  layout_ok L = true ->
  items_ok l = true ->
  length l = NUM_SUGGESTIONS ->
  forallb conforms (symbols l) = true ->
  ~ NoDup (symbols l) ->
  parseChordSuggestions (render L l) = Returns (strings (symbols l)).
Proof.
  intros HL Hl Hlen Hc _. apply parse_conforming; assumption.
Qed.

Lemma duplicates_not_rejected_witness :
  parseChordSuggestions
    (render compact (map bare (replicate 12 (codes "C"))))
  = Returns (strings (replicate 12 (codes "C"))).
Proof.
  apply (duplicates_not_rejected compact
           (map bare (replicate 12 (codes "C")))).
  - reflexivity.
  - reflexivity.
  - reflexivity.
  - vm_compute. reflexivity.
  - intros H. apply NoDup_cons in H as [H _]. apply H. left.
Defined.

(** * The model on further inputs *)

(** A text without the object: the format error. *)
Example no_object_rejected :
  parseChordSuggestions (codes "I cannot help with that.")
  = Throws InvalidFormat.
Proof. vm_compute. reflexivity. Qed.

(** Symbols without quotes: the pattern matches, [JSON.parse] throws. *)
Example unquoted_symbols_rejected :
  parseChordSuggestions (js "{'chordSuggestions': [C, Am]}")
  = Throws SyntaxError.
Proof. vm_compute. reflexivity. Qed.

(** A number among the elements has no [match] method. *)
Example number_element_rejected :
  parseChordSuggestions
    (js "{'chordSuggestions': ['C',2,'D','E','F','G','A','B','C','D','E','F']}")
  = Throws TypeError.
Proof. vm_compute. reflexivity. Qed.

(** The slots of a progression in the prompt: empty slots give nothing
    between the commas. *)
Example join_chords_sample :
  join_chords (chords sample_progression) = codes "Am,,Dm".
Proof. reflexivity. Qed.

(** The three progressions of the test cases of the repository are built
    without error. *)
Example test_case_progressions :
  snd (bind (setKey (codes "B major")) (fun _ => addSlot None)
         (constructor None))
  = {| key := codes "B major"; chords := [None] |}
  /\ (addSlot None ;;; addChord 0 (codes "Am") ;;; addSlot None ;;;
      addChord 1 (codes "Dm") ;;; addSlot None)
       (constructor (Some (codes "A minor")))
     = (Returns tt, {| key := codes "A minor";
                       chords := [Some (codes "Am"); Some (codes "Dm");
                                  None] |})
  /\ (addSlot None ;;; addChord 0 (codes "C") ;;; addSlot None ;;;
      addChord 1 (codes "G") ;;; addSlot None ;;;
      addChord 2 (codes "Am") ;;; addSlot None ;;;
      addChord 3 (codes "F")) (constructor None)
     = (Returns tt, {| key := codes "C major";
                       chords := [Some (codes "C"); Some (codes "G");
                                  Some (codes "Am"); Some (codes "F")] |}).
Proof. repeat split. Qed.

(** * Further properties of the progression store *)

Lemma progression_eta (p : Progression) :
  {| key := key p; chords := chords p |} = p.
Proof. destruct p. reflexivity. Qed.



Lemma append_chords_appends (cs : list (list char)) : forall p,
  append_chords (Z.of_nat (length (chords p))) cs p
  = (Returns tt, {| key := key p; chords := chords p ++ map Some cs |}).
Proof.
  induction cs as [|c cs IH]; intros p.
  - cbn [append_chords map]. rewrite app_nil_r, progression_eta. reflexivity.
  - cbn [append_chords]. unfold bind at 1. rewrite addSlot_append.
    unfold bind at 1. rewrite addChord_at
      by (unfold in_bounds; cbn [chords]; rewrite length_app; simpl; lia).
    cbn [key chords].
    replace (<[Z.to_nat (Z.of_nat (length (chords p))) := Some c]>
               (chords p ++ [None]))
      with (chords p ++ [Some c])
      by (rewrite Nat2Z.id, <- (Nat.add_0_r (length (chords p))),
          insert_app_r; reflexivity).
    replace (Z.of_nat (length (chords p)) + 1)%Z
      with (Z.of_nat (length (chords {| key := key p;
                                        chords := chords p ++ [Some c] |})))
      by (cbn [chords]; rewrite length_app; simpl; lia).
    rewrite IH. cbn [key chords map]. rewrite <- app_assoc. reflexivity.
Qed.

(** X4: Filling a builder the way the test cases do, [addSlot()] and then
    [addChord] at the new index for each chord, never throws and puts the
    chords after the slots that were there, in order; from a new builder
    the slots read back are the chords. *)
Theorem append_chords_round_trip (cs : list (list char)) (p : Progression) :
  append_chords (Z.of_nat (length (chords p))) cs p
  = (Returns tt, {| key := key p; chords := chords p ++ map Some cs |})
  /\ append_chords 0 cs (constructor None)
     = (Returns tt, {| key := codes "C major"; chords := map Some cs |}).
Proof.
  split; [apply append_chords_appends|].
  exact (append_chords_appends cs (constructor None)).
Qed.

Lemma add_slots_appends n : forall p,
  add_slots n p
  = (Returns tt, {| key := key p; chords := chords p ++ replicate n None |}).
Proof.
  induction n as [|n IH]; intros p.
  - cbn [add_slots replicate]. rewrite app_nil_r, progression_eta.
    reflexivity.
  - cbn [add_slots]. unfold bind at 1. rewrite addSlot_append, IH.
    cbn [key chords replicate]. rewrite <- app_assoc. reflexivity.
Qed.

Lemma fill_chords_fills (cs : list (list char)) : forall p before after,
  chords p = before ++ replicate (length cs) None ++ after ->
  fill_chords (Z.of_nat (length before)) cs p
  = (Returns tt,
     {| key := key p; chords := before ++ map Some cs ++ after |}).
Proof.
  induction cs as [|c cs IH]; intros p before after Hp.
  - cbn [fill_chords map app]. cbn in Hp. rewrite <- Hp, progression_eta.
    reflexivity.
  - cbn [fill_chords]. unfold bind at 1.
    rewrite addChord_at
      by (unfold in_bounds; rewrite Hp, length_app; simpl; lia).
    replace (Z.of_nat (length before) + 1)%Z
      with (Z.of_nat (length (before ++ [Some c])))
      by (rewrite length_app; simpl; lia).
    rewrite (IH _ (before ++ [Some c]) after).
    + cbn [key map]. rewrite <- !app_assoc. reflexivity.
    + cbn [chords]. rewrite Hp, Nat2Z.id.
      rewrite <- (Nat.add_0_r (length before)), insert_app_r.
      cbn. rewrite <- app_assoc. reflexivity.
Qed.

(** X5: [addSlot()] once for each chord and then [addChord] at each of the new
    indices: no call throws, and the slots read back are the slots that
    were there followed by the chords, in order. *)
Theorem add_slots_fill_round_trip (cs : list (list char)) (p : Progression) :
  (add_slots (length cs) ;;;
   fill_chords (Z.of_nat (length (chords p))) cs) p
  = (Returns tt, {| key := key p; chords := chords p ++ map Some cs |}).
Proof.
  unfold bind. rewrite add_slots_appends.
  rewrite (fill_chords_fills cs _ (chords p) []).
  - cbn [key]. rewrite app_nil_r. reflexivity.
  - cbn [chords]. rewrite app_nil_r. reflexivity.
Qed.




(** X7: Removing a slot is undone through its position only when later slots
    exist. After [removeSlot] of a slot that holds a chord and is not the
    last one, [addSlot] and [addChord] at the same position bring the
    progression back. After [removeSlot] of the last slot of a progression
    that has one, whatever it holds, [addSlot] at that position throws and
    the progression stays one slot shorter. *)
Theorem removeSlot_undo (p : Progression) :
  (forall (position : Z) (chord : list char),
      (0 <= position < Z.of_nat (length (chords p)) - 1)%Z ->
      chords p !! Z.to_nat position = Some (Some chord) ->
      (removeSlot position ;;; addSlot (Some (Int position)) ;;;
       addChord position chord) p = (Returns tt, p))
  /\ (chords p <> [] ->
      let last := (Z.of_nat (length (chords p)) - 1)%Z in
      (removeSlot last ;;; addSlot (Some (Int last))) p
      = (Throws (InvalidPosition last (last - 1)),
         {| key := key p; chords := take (Z.to_nat last) (chords p) |})).
Proof.
  assert (Hlen : forall position : Z,
             (0 <= position < Z.of_nat (length (chords p)))%Z ->
             length (delete (Z.to_nat position) (chords p))
             = (length (chords p) - 1)%nat).
  { intros position H.
    rewrite length_delete by (apply lookup_lt_is_Some; lia). reflexivity. }
  split.
  - intros position chord H Hc. specialize (Hlen position ltac:(lia)).
    unfold bind at 1.
    rewrite removeSlot_at by (unfold in_bounds; lia).
    unfold bind at 1.
    rewrite addSlot_at by (unfold in_bounds; cbn [chords]; lia).
    cbn [key chords].
    rewrite addChord_at
      by (unfold in_bounds; cbn [chords];
          rewrite length_app, length_take; cbn [length];
          rewrite length_drop; lia).
    cbn [key chords].
    apply (f_equal (pair (Returns tt))).
    etransitivity; [|apply progression_eta]. f_equal.
    rewrite delete_take_drop.
    rewrite take_app_length' by (rewrite length_take; lia).
    rewrite drop_app_length' by (rewrite length_take; lia).
    rewrite <- (Nat.add_0_r (Z.to_nat position)) at 1.
    replace (Z.to_nat position + 0)%nat
      with (length (take (Z.to_nat position) (chords p)) + 0)%nat
      by (rewrite length_take; lia).
    rewrite insert_app_r. cbn.
    rewrite <- (take_drop_middle (chords p) (Z.to_nat position) (Some chord))
      at 3 by exact Hc.
    reflexivity.
  - intros Hne last.
    assert (H : (0 <= last < Z.of_nat (length (chords p)))%Z).
    { subst last. destruct (chords p); [congruence|]. cbn [length]. lia. }
    specialize (Hlen last H).
    unfold bind at 1. rewrite removeSlot_at by exact H.
    unfold addSlot.
    rewrite guarded_throws by (unfold in_bounds; cbn [chords]; lia).
    cbn [chords]. rewrite Hlen, delete_take_drop.
    rewrite (drop_ge (chords p)) by lia. rewrite app_nil_r.
    repeat f_equal. lia.
Qed.

Lemma removeSlot_undo_witness :
  (removeSlot 0 ;;; addSlot (Some (Int 0)) ;;; addChord 0 (codes "Am"))
    sample_progression = (Returns tt, sample_progression)
  /\ (removeSlot 2 ;;; addSlot (Some (Int 2))) sample_progression
     = (Throws (InvalidPosition 2 1),
        {| key := codes "A minor";
           chords := [Some (codes "Am"); None] |}).
Proof.
  split.
  - apply (proj1 (removeSlot_undo sample_progression) 0%Z (codes "Am")).
    + simpl. lia.
    + reflexivity.
  - apply (proj2 (removeSlot_undo sample_progression)). discriminate.
Defined.

(** X8: [addSlot(position)] within bounds makes the sequence one longer: the
    slots before the position stay, the slot at the position is empty, and
    every slot from the old position on moves up by one index. *)
Theorem addSlot_at_position_shifts (p : Progression) (position : Z) :
  (0 <= position < Z.of_nat (length (chords p)))%Z ->
  exists p',
    addSlot (Some (Int position)) p = (Returns tt, p')
    /\ key p' = key p
    /\ length (chords p') = S (length (chords p))
    /\ (forall i, (i < Z.to_nat position)%nat ->
          chords p' !! i = chords p !! i)
    /\ chords p' !! Z.to_nat position = Some None
    /\ (forall i, (Z.to_nat position <= i)%nat ->
          chords p' !! S i = chords p !! i).
Proof.
  intros H. eexists. split; [apply addSlot_at; exact H|].
  cbn [key chords].
  assert (Ht : length (take (Z.to_nat position) (chords p))
               = Z.to_nat position) by (rewrite length_take; lia).
  repeat split.
  - rewrite length_app, Ht. cbn [length]. rewrite length_drop. lia.
  - intros i Hi. rewrite lookup_app_l by lia. apply lookup_take_lt. exact Hi.
  - rewrite lookup_app_r by lia. rewrite Ht, Nat.sub_diag. reflexivity.
  - intros i Hi. rewrite lookup_app_r by lia. rewrite Ht.
    replace (S i - Z.to_nat position)%nat
      with (S (i - Z.to_nat position)) by lia.
    rewrite lookup_cons_ne_0 by lia. cbn [pred].
    rewrite lookup_drop. f_equal. lia.
Qed.

Lemma addSlot_at_position_shifts_witness :
  exists p',
    addSlot (Some (Int 1)) sample_progression = (Returns tt, p')
    /\ key p' = key sample_progression
    /\ length (chords p') = 4%nat
    /\ (forall i, (i < 1)%nat ->
          chords p' !! i = chords sample_progression !! i)
    /\ chords p' !! 1%nat = Some None
    /\ (forall i, (1 <= i)%nat ->
          chords p' !! S i = chords sample_progression !! i).
Proof.
  apply (addSlot_at_position_shifts sample_progression 1). simpl. lia.
Defined.




(** * Further properties of the validation *)

Lemma search_none total r s :
  no_match_inside total r s [] = true ->
  match_here total r [] = None ->
  search total r s = None.
Proof.
  intros Hs Hnil. induction s as [|c s IH].
  - cbn [search]. rewrite Hnil. reflexivity.
  - cbn [no_match_inside] in Hs. rewrite app_nil_r in Hs. cbn [search].
    destruct (match_here total r (c :: s)); [discriminate|].
    apply IH. exact Hs.
Qed.

(** X12: A response that holds no opening brace is rejected with the format
    error. *)
Theorem response_without_brace_rejected (text : list char) :
  forallb (fun c => negb (c =? ch "{")) text = true ->
  parseChordSuggestions text = Throws InvalidFormat.
Proof.
  intros H. unfold parseChordSuggestions, regex_match.
  rewrite search_none; [reflexivity| |reflexivity].
  apply no_brace_no_match. exact H.
Qed.

Lemma response_without_brace_rejected_witness :
  parseChordSuggestions (codes "C, Am, F and G would all fit here.")
  = Throws InvalidFormat.
Proof.
  apply response_without_brace_rejected. vm_compute. reflexivity.
Defined.

(** The chord pattern matches at the start of the text only, and its first
    code unit is the letter of a note. *)
Lemma conforms_here chord :
  conforms chord = true ->
  run (length chord) CHORD_BODY
    (fun s' => match s' with [] => Some s' | _ => None end) chord = Some [].
Proof.
  unfold conforms, regex_match.
  destruct (search (length chord) CHORD_PATTERN chord) as [m|] eqn:E;
    [intros _|discriminate].
  apply search_found in E as (s1 & s2 & rest & Hsplit & Hm).
  apply chord_pattern_here in Hm as (Hlen & _ & Hm).
  assert (s1 = []) as ->.
  { subst chord. rewrite length_app in Hlen. destruct s1; [reflexivity|].
    simpl in Hlen. lia. }
  cbn [app] in Hsplit. subst s2. exact Hm.
Qed.

Lemma conforms_root chord :
  conforms chord = true ->
  exists root rest, chord = root :: rest /\ is_note_letter root = true.
Proof.
  intros H. apply conforms_here in H.
  unfold CHORD_BODY, note in H. cbn [run] in H.
  destruct chord as [|root rest]; [discriminate|].
  exists root, rest. split; [reflexivity|].
  cbn [cls_mem existsb item_mem] in H. unfold is_note_letter.
  destruct ((ch "A" <=? root) && (root <=? ch "G")); [reflexivity|].
  discriminate.
Qed.

Lemma code_range_mem lo hi c :
  lo <= c -> c <= hi -> In c (code_range lo hi).
Proof.
  intros Hlo Hhi. unfold code_range. apply in_map_iff.
  exists (N.to_nat (c - lo)). split; [lia|].
  apply in_seq. lia.
Qed.

Lemma item_within_mem P i c :
  item_within P i = true -> item_mem i c = true -> P c = true.
Proof.
  destruct i as [x|lo hi| | |]; cbn [item_within item_mem]; intros Hi Hc;
    try discriminate.
  - apply N.eqb_eq in Hc. subst c. exact Hi.
  - apply andb_prop in Hc as [H1 H2]. apply N.leb_le in H1, H2.
    rewrite forallb_forall in Hi. apply Hi, code_range_mem; assumption.
  - unfold is_digit in Hc. apply andb_prop in Hc as [H1 H2].
    apply N.leb_le in H1, H2.
    rewrite forallb_forall in Hi. apply Hi, code_range_mem; assumption.
Qed.

Lemma cls_within_mem P items c :
  forallb (item_within P) items = true -> cls_mem items c = true ->
  P c = true.
Proof.
  unfold cls_mem. induction items as [|i items IH]; cbn [forallb existsb].
  - discriminate.
  - intros Hi Hc. apply andb_prop in Hi as [Hi Hitems].
    apply orb_prop in Hc as [Hc|Hc].
    + exact (item_within_mem P i c Hi Hc).
    + exact (IH Hitems Hc).
Qed.

(** X18: A symbol that conforms is not empty, starts with the letter of a note,
    and holds only code units that occur in the chord pattern: the letters
    A to G, the digits, and [#], [b], [/], [M], [a], [d], [g], [i], [j],
    [m], [n], [s], [u]. *)
Theorem conforming_symbol_shape (chord : list char) :
  conforms chord = true ->
  (exists root rest, chord = root :: rest /\ is_note_letter root = true)
  /\ forallb chord_char chord = true.
Proof.
  intros H. split; [exact (conforms_root chord H)|].
  apply conforms_here in H.
  apply run_consumes in H as (w & s' & -> & Hw & Hs').
  destruct s'; [|discriminate]. rewrite app_nil_r.
  revert Hw. apply forallb_weaken. intros c.
  apply cls_within_mem. vm_compute. reflexivity.
Qed.

Lemma conforming_symbol_shape_witness :
  (exists root rest,
      codes "F#dim" = root :: rest /\ is_note_letter root = true)
  /\ forallb chord_char (codes "F#dim") = true.
Proof.
  apply (conforming_symbol_shape (codes "F#dim")). vm_compute. reflexivity.
Defined.

Lemma check_chords_strings l :
  check_chords l = Returns tt ->
  exists cs, l = map JStr cs /\ forallb conforms cs = true.
Proof.
  induction l as [|j l IH]; cbn [check_chords].
  - intros _. exists []. auto.
  - destruct j as [| | |c| |]; try discriminate.
    destruct (regex_match CHORD_PATTERN c) as [m|] eqn:E; [|discriminate].
    intros H. apply IH in H as (cs & -> & Hcs).
    exists (c :: cs). split; [reflexivity|].
    cbn [forallb]. unfold conforms at 1. rewrite E. exact Hcs.
Qed.

Lemma check_chords_unit l (u : unit) :
  check_chords l = Returns u -> check_chords l = Returns tt.
Proof. destruct u. auto. Qed.

Lemma conforms_single c :
  conforms [c] = true -> is_note_letter c = true.
Proof.
  intros H. apply conforms_root in H as (root & rest & [= <- <-] & H).
  exact H.
Qed.

Lemma conforms_pair_not_surrogate c1 c2 rest :
  conforms (c1 :: c2 :: rest) = true -> is_high_surrogate c1 = false.
Proof.
  intros H. apply conforms_root in H as (root & rest' & [= <- <-] & H).
  unfold is_note_letter in H. unfold is_high_surrogate.
  change (ch "A") with 65 in H. change (ch "G") with 71 in H.
  apply andb_prop in H as [H1 H2]. apply N.leb_le in H1, H2.
  apply andb_false_intro1, N.leb_gt. lia.
Qed.

Lemma code_points_two c1 c2 s2 :
  code_points (c1 :: c2 :: s2) =
    if is_high_surrogate c1 && is_low_surrogate c2
    then [c1; c2] :: code_points s2
    else [c1] :: code_points (c2 :: s2).
Proof. reflexivity. Qed.

Lemma code_points_letters n : forall s,
  (length s <= n)%nat ->
  forallb conforms (code_points s) = true ->
  forallb is_note_letter s = true.
Proof.
  induction n as [|n IH]; intros s Hn H.
  - destruct s; [reflexivity|simpl in Hn; lia].
  - destruct s as [|c1 [|c2 s2]]; [reflexivity| |].
    + cbn in H |- *. apply andb_prop in H as [H _].
      rewrite (conforms_single _ H). reflexivity.
    + rewrite code_points_two in H. cbn [length] in Hn.
      destruct (is_high_surrogate c1 && is_low_surrogate c2) eqn:E.
      * cbn [forallb] in H. apply andb_prop in H as [H _].
        apply conforms_pair_not_surrogate in H.
        rewrite H in E. discriminate.
      * cbn [forallb] in H. apply andb_prop in H as [H1 H2].
        apply IH in H2; [|simpl; lia].
        cbn [forallb] in H2 |- *. rewrite (conforms_single _ H1), H2.
        reflexivity.
Qed.

Lemma parse_returns_checked (text : list char) (v : value) :
  parseChordSuggestions text = Returns v ->
  (exists cs, v = strings cs /\ length cs = NUM_SUGGESTIONS
              /\ forallb conforms cs = true)
  \/ (exists s, v = VJson (JStr s) /\ length s = NUM_SUGGESTIONS
                /\ forallb is_note_letter s = true).
Proof.
  unfold parseChordSuggestions.
  destruct (regex_match RESPONSE_PATTERN text) as [m0|]; [|discriminate].
  destruct (JSON_parse m0) as [parsed|]; [|discriminate].
  destruct (get_chordSuggestions parsed) as [w|]; [|discriminate].
  destruct (get_length w) as [len|] eqn:Elen; [|discriminate].
  destruct (differs_from_NUM_SUGGESTIONS len) eqn:Ed; [discriminate|].
  destruct (iterate w) as [l|] eqn:Eit; [|discriminate].
  destruct (check_chords l) as [u|] eqn:Ec; [|discriminate].
  intros [= <-]. apply check_chords_unit, check_chords_strings in Ec.
  destruct Ec as (cs & -> & Hcs).
  destruct w as [|n|[| | |s|elements|ms]]; try discriminate.
  - right. exists s. cbn in Elen, Eit. injection Elen as <-.
    injection Eit as Eit. cbn in Ed.
    apply negb_false_iff, Nat.eqb_eq in Ed.
    split; [reflexivity|]. split; [exact Ed|].
    apply (code_points_letters (length s)); [lia|].
    assert (Hcp : code_points s = cs).
    { clear -Eit. revert cs Eit.
      induction (code_points s) as [|x xs IH]; intros [|c cs];
        try discriminate; [reflexivity|].
      cbn [map]. intros [= -> H]. f_equal. exact (IH _ H). }
    rewrite Hcp. exact Hcs.
  - left. exists cs. cbn in Elen, Eit. injection Elen as <-.
    injection Eit as ->. cbn in Ed.
    apply negb_false_iff, Nat.eqb_eq in Ed. rewrite length_map in Ed.
    auto.
Qed.

(** X15: What parseChordSuggestions returns has passed the checks: it is an array
    of exactly twelve strings that all conform to the chord pattern, or,
    when the member [chordSuggestions] of the parsed object is a string
    and no array, that string, of twelve code units that are letters of
    notes. Nothing else is ever returned. *)
Theorem returned_value_validated (text : list char) (v : value) :
  parseChordSuggestions text = Returns v ->
  (exists cs, v = strings cs /\ length cs = NUM_SUGGESTIONS
              /\ forallb conforms cs = true)
  \/ (exists s, v = VJson (JStr s) /\ length s = NUM_SUGGESTIONS
                /\ forallb is_note_letter s = true).
Proof. exact (parse_returns_checked text v). Qed.

Lemma returned_value_validated_witness :
  (exists cs, strings twelve_chords = strings cs
              /\ length cs = NUM_SUGGESTIONS
              /\ forallb conforms cs = true)
  \/ (exists s, strings twelve_chords = VJson (JStr s)
                /\ length s = NUM_SUGGESTIONS
                /\ forallb is_note_letter s = true).
Proof.
  apply (returned_value_validated sample_response).
  vm_compute. reflexivity.
Defined.

(** X3: What a call of suggestChords guarantees, for every client of the
    language model, every progression and every number as position, [NaN]
    and fractions too: the progression is left as it was, whether the call
    returns or throws; and when the call returns a value, the position
    passed both comparisons of the bounds check, the value is what
    validation made of the text that the client gave for the prompt of
    this progression and position, and it is an array of exactly twelve
    strings that conform to the chord pattern (or the string of twelve
    note letters). *)
Theorem suggestChords_postcondition
    (executeLLM : list char -> outcome (list char)) (p : Progression)
    (position : jsnum) :
  snd (suggestChords executeLLM position p) = p
  /\ forall v : value,
       fst (suggestChords executeLLM position p) = Returns v ->
       less_than position 0 = false
       /\ at_least position (Z.of_nat (length (chords p))) = false
       /\ (exists text,
             executeLLM (createSuggestionPrompt p position) = Returns text
             /\ parseChordSuggestions text = Returns v)
       /\ ((exists cs, v = strings cs /\ length cs = NUM_SUGGESTIONS
                       /\ forallb conforms cs = true)
           \/ (exists s, v = VJson (JStr s) /\ length s = NUM_SUGGESTIONS
                         /\ forallb is_note_letter s = true)).
Proof.
  unfold suggestChords, validatePosition, bind, get_chords, ret, throw.
  destruct (less_than position 0) eqn:E1;
    [split; [reflexivity|discriminate]|].
  destruct (at_least position _) eqn:E2;
    [split; [reflexivity|discriminate]|].
  cbn [orb].
  destruct (executeLLM _) as [text|e] eqn:Ellm;
    [|split; [reflexivity|discriminate]].
  split; [reflexivity|]. cbn [fst]. intros v Hv.
  split; [reflexivity|]. split; [reflexivity|].
  split; [exists text; auto|].
  exact (parse_returns_checked text v Hv).
Qed.

Lemma suggestChords_postcondition_witness :
  snd (suggestChords (fun _ => Returns sample_response) 1 sample_progression)
  = sample_progression
  /\ (exists text,
        text = sample_response
        /\ parseChordSuggestions text = Returns (strings twelve_chords))
  /\ ((exists cs, strings twelve_chords = strings cs
                  /\ length cs = NUM_SUGGESTIONS
                  /\ forallb conforms cs = true)
      \/ (exists s, strings twelve_chords = VJson (JStr s)
                    /\ length s = NUM_SUGGESTIONS
                    /\ forallb is_note_letter s = true)).
Proof.
  destruct (suggestChords_postcondition
              (fun _ => Returns sample_response) sample_progression 1)
    as (Hframe & Hvalue).
  split; [exact Hframe|].
  destruct (Hvalue (strings twelve_chords)) as (_ & _ & Htext & Hshape).
  - vm_compute. reflexivity.
  - split; [|exact Hshape].
    destruct Htext as (text & Hllm & Hparse).
    exists text. split; [congruence|exact Hparse].
Defined.

(** The branch of the string is taken: an object whose member
    [chordSuggestions] is given twice, the second time as a string. *)
Example string_of_letters_returned :
  parseChordSuggestions
    (js "{'chordSuggestions':[1],'chordSuggestions':'ABCDEFGABCDE','x':[]}")
  = Returns (VJson (JStr (codes "ABCDEFGABCDE"))).
Proof. vm_compute. reflexivity. Qed.

Lemma match_here_suffix total r s rest :
  match_here total r s = Some rest -> exists w, s = w ++ rest.
Proof.
  unfold match_here. intros H.
  apply run_consumes in H as (w & s' & -> & _ & [= ->]).
  exists w. reflexivity.
Qed.

(** The match that [search] gives: a part of the text at which the pattern
    matches, with no match at an earlier start. *)
Lemma search_leftmost total r s m :
  search total r s = Some m ->
  exists before after,
    s = before ++ m ++ after
    /\ match_here total r (m ++ after) = Some after
    /\ no_match_inside total r before (m ++ after) = true.
Proof.
  assert (Hhere : forall s rest,
            match_here total r s = Some rest ->
            exists w, s = w ++ rest
                      /\ take (length s - length rest) s = w).
  { intros s0 rest H. pose proof H as (w & ->)%match_here_suffix.
    exists w. split; [reflexivity|].
    rewrite length_app, Nat.add_sub, take_app_length. reflexivity. }
  induction s as [|c s IH]; cbn [search].
  - destruct (match_here total r []) as [rest|] eqn:E; [|discriminate].
    intros [= <-]. destruct (Hhere _ _ E) as (w & Hw & _).
    symmetry in Hw. apply app_eq_nil in Hw as [_ ->].
    exists [], []. auto.
  - destruct (match_here total r (c :: s)) as [rest|] eqn:E.
    + intros H. destruct (Hhere _ _ E) as (w & Hw & Ht).
      assert (m = w) as -> by congruence.
      exists [], rest. rewrite <- Hw. auto.
    + intros H. apply IH in H as (before & after & -> & Hm & Hno).
      exists (c :: before), after. split; [reflexivity|].
      split; [exact Hm|]. cbn [no_match_inside app]. cbn [app] in E.
      rewrite E. exact Hno.
Qed.

Lemma response_pattern_braces total s rest :
  match_here total RESPONSE_PATTERN s = Some rest ->
  exists inner, s = ch "{" :: inner ++ ch "}" :: rest.
Proof.
  unfold match_here. destruct s as [|c s].
  { intros H. vm_compute in H. discriminate. }
  change (run total RESPONSE_PATTERN Some (c :: s))
    with (if cls_mem [CChar (ch "{")] c then
            run total RESPONSE_INNER (run total (chr "}") Some) s
          else None).
  destruct (cls_mem [CChar (ch "{")] c) eqn:E; [|discriminate].
  cbn [cls_mem existsb item_mem] in E. rewrite orb_false_r in E.
  apply N.eqb_eq in E. subst c. intros H.
  apply run_consumes in H as (inner & s' & -> & _ & H).
  destruct s' as [|c' s']; [discriminate|].
  cbn [run chr cls_mem existsb item_mem] in H. rewrite orb_false_r in H.
  destruct (c' =? ch "}") eqn:E'; [|discriminate].
  apply N.eqb_eq in E'. subst c'. injection H as <-.
  exists inner. reflexivity.
Qed.

(** X14: What is handed to [JSON.parse] is a part of the response that starts
    with an opening brace and ends with a closing brace, and it is the
    leftmost part of the response at which the pattern matches. *)
Theorem extracted_text_shape (text m : list char) :
  regex_match RESPONSE_PATTERN text = Some m ->
  exists before inner after,
    text = before ++ m ++ after
    /\ m = ch "{" :: inner ++ [ch "}"]
    /\ no_earlier_match RESPONSE_PATTERN before (m ++ after) = true.
Proof.
  unfold regex_match. intros H.
  apply search_leftmost in H as (before & after & Htext & Hm & Hno).
  apply response_pattern_braces in Hm as (inner & Hinner).
  exists before, inner, after. split; [exact Htext|]. split.
  - change (ch "{" :: inner ++ ch "}" :: after)
      with ((ch "{" :: inner) ++ [ch "}"] ++ after) in Hinner.
    rewrite app_assoc in Hinner. apply app_inv_tail in Hinner.
    rewrite Hinner. reflexivity.
  - unfold no_earlier_match. rewrite <- Htext. exact Hno.
Qed.

Lemma extracted_text_shape_witness :
  exists before inner after,
    fence_open ++ sample_response ++ fence_close
    = before ++ sample_response ++ after
    /\ sample_response = ch "{" :: inner ++ [ch "}"]
    /\ no_earlier_match RESPONSE_PATTERN before (sample_response ++ after)
       = true.
Proof.
  apply (extracted_text_shape (fence_open ++ sample_response ++ fence_close)
           sample_response).
  vm_compute. reflexivity.
Defined.

Lemma check_chords_find cs :
  check_chords (map JStr cs) =
    match first_nonconforming cs with
    | Some bad => Throws (InvalidChord bad)
    | None => Returns tt
    end.
Proof.
  unfold first_nonconforming. induction cs as [|c cs IH]; [reflexivity|].
  cbn [map check_chords find]. unfold conforms at 1.
  destruct (regex_match CHORD_PATTERN c); [exact IH|reflexivity].
Qed.

(** X16: The outcome for every well-formed object of string elements in a text
    with no earlier match, whatever the strings are as long as none is
    written with a closing bracket: the count is checked first, so a count
    other than 12 is cited even when symbols do not conform; with 12
    elements the first symbol that does not conform is cited; otherwise
    the symbols are returned. *)
Theorem rendered_response_validation (prefix suffix : list char)
    (L : layout) (l : list item) :
  layout_ok L = true ->
  forallb item_ok l = true ->
  no_earlier_match RESPONSE_PATTERN prefix (render L l ++ suffix) = true ->
  parseChordSuggestions (prefix ++ render L l ++ suffix) =
    if (length l =? NUM_SUGGESTIONS)%nat
    then match first_nonconforming (symbols l) with
         | Some bad => Throws (InvalidChord bad)
         | None => Returns (strings (symbols l))
         end
    else Throws (InvalidCount (VLength (length l))).
Proof.
  intros HL Hl Hpre. rewrite parse_embedded by assumption.
  rewrite check_chords_find.
  destruct (first_nonconforming (symbols l)); reflexivity.
Qed.

Lemma rendered_response_validation_witness :
  parseChordSuggestions
    ([] ++ render compact (map bare [codes "H7"; codes "not a chord"]) ++ [])
  = Throws (InvalidCount (VLength 2)).
Proof.
  apply (rendered_response_validation [] [] compact
           (map bare [codes "H7"; codes "not a chord"])).
  - reflexivity.
  - vm_compute. reflexivity.
  - reflexivity.
Defined.

(** * Further properties of the prompt *)

Lemma join_chords_middle (l1 : list Chord) x l2 :
  join_chords (l1 ++ x :: l2) =
    match l1 with
    | [] => []
    | _ :: _ => join_chords l1 ++ [ch ","]
    end
    ++ default [] x
    ++ match l2 with
       | [] => []
       | _ :: _ => ch "," :: join_chords l2
       end.
Proof.
  induction l1 as [|y l1 IH].
  - destruct l2; cbn [app join_chords]; [rewrite app_nil_r|]; reflexivity.
  - change ((y :: l1) ++ x :: l2) with (y :: (l1 ++ x :: l2)).
    destruct l1 as [|z l1].
    + cbn [app]. change (join_chords (y :: x :: l2))
        with (default [] y ++ ch "," :: join_chords (x :: l2)).
      change (x :: l2) with ([] ++ x :: l2) at 1. rewrite IH.
      cbn [join_chords app]. rewrite <- !app_assoc. reflexivity.
    + change (join_chords (y :: (z :: l1) ++ x :: l2))
        with (default [] y ++ ch "," :: join_chords ((z :: l1) ++ x :: l2)).
      rewrite IH.
      change (join_chords (y :: z :: l1))
        with (default [] y ++ ch "," :: join_chords (z :: l1)).
      rewrite <- !app_assoc. reflexivity.
Qed.

Lemma join_chords_comma (l1 l2 : list Chord) (a b : list char) :
  join_chords (l1 ++ Some (a ++ ch "," :: b) :: l2)
  = join_chords (l1 ++ Some a :: Some b :: l2).
Proof.
  rewrite !join_chords_middle. f_equal.
  destruct l2 as [|z l2]; cbn [default from_option id join_chords];
    rewrite <- ?app_assoc; cbn [app]; rewrite ?app_nil_r; reflexivity.
Qed.

(** X20: The prompt does not mark the slots: an empty slot reads like a slot
    with the empty string, and a slot whose chord holds a comma reads like
    two slots. *)
Theorem prompt_does_not_mark_slots (k : list char) (l1 l2 : list Chord)
    (a b : list char) (position : Z) :
  createSuggestionPrompt {| key := k; chords := l1 ++ None :: l2 |} position
  = createSuggestionPrompt {| key := k; chords := l1 ++ Some [] :: l2 |}
      position
  /\ createSuggestionPrompt
       {| key := k; chords := l1 ++ Some (a ++ ch "," :: b) :: l2 |} position
     = createSuggestionPrompt
         {| key := k; chords := l1 ++ Some a :: Some b :: l2 |} position.
Proof.
  unfold createSuggestionPrompt. cbn [key chords]. split.
  - rewrite !join_chords_middle. reflexivity.
  - rewrite join_chords_comma. reflexivity.
Qed.

(** * The matcher and what a pattern matches *)

Section Reach.
Context {A : Type} (total : nat).
Implicit Types (k : list char -> option A) (s : list char).

Lemma star_loop_reach greedy r
    (Hbody : forall k s x, run total r k s = Some x ->
       exists s', reach total r s s' /\ k s' = Some x) :
  forall n k s x,
    star_loop greedy (run total r) k n s = Some x ->
    exists s', reach total (Star greedy r) s s' /\ k s' = Some x.
Proof.
  induction n as [|n IH]; intros k s x H.
  - exists s. split; [constructor|exact H].
  - cbn [star_loop] in H.
    assert (Hagain : run total r
                (fun s' => if (length s' <? length s)%nat
                           then star_loop greedy (run total r) k n s'
                           else None) s
              = Some x ->
              exists s', reach total (Star greedy r) s s' /\ k s' = Some x).
    { intros Hb. apply Hbody in Hb as (s1 & Hr & Hs1).
      destruct (length s1 <? length s)%nat eqn:E; [|discriminate].
      apply Nat.ltb_lt in E.
      apply IH in Hs1 as (s2 & Hstar & Hs2).
      exists s2. split; [|exact Hs2].
      exact (reach_star_more total greedy r s s1 s2 Hr E Hstar). }
    destruct greedy.
    + destruct (run total r _ s) as [y|] eqn:E.
      * apply Hagain. congruence.
      * exists s. split; [constructor|exact H].
    + destruct (k s) as [y|] eqn:E.
      * exists s. split; [constructor|congruence].
      * apply Hagain. exact H.
Qed.

(** A result of the matcher comes from a match. *)
Lemma run_reach r : forall k s x,
  run total r k s = Some x ->
  exists s', reach total r s s' /\ k s' = Some x.
Proof.
  induction r as [| | |items|r1 IH1 r2 IH2|r1 IH1 r2 IH2|g r IH|r IH];
    intros k s x H; cbn [run] in H.
  - exists s. split; [constructor|exact H].
  - destruct (length s =? total)%nat eqn:E; [|discriminate].
    apply Nat.eqb_eq in E. exists s. split; [constructor; exact E|exact H].
  - destruct s; [|discriminate]. exists []. split; [constructor|exact H].
  - destruct s as [|c s]; [discriminate|].
    destruct (cls_mem items c) eqn:E; [|discriminate].
    exists s. split; [constructor; exact E|exact H].
  - apply IH1 in H as (s1 & H1 & H). apply IH2 in H as (s2 & H2 & H).
    exists s2. split; [econstructor; eassumption|exact H].
  - destruct (run total r1 k s) as [y|] eqn:E.
    + rewrite H in E. apply IH1 in E as (s' & H1 & E).
      exists s'. split; [apply reach_alt_l; exact H1|exact E].
    + apply IH2 in H as (s' & H2 & H).
      exists s'. split; [apply reach_alt_r; exact H2|exact H].
  - revert H. apply star_loop_reach. exact IH.
  - destruct (run total r _ s) as [y|] eqn:E.
    + rewrite H in E. apply IH in E as (s' & Hr & E).
      destruct (length s' <? length s)%nat eqn:El; [|discriminate].
      apply Nat.ltb_lt in El.
      exists s'. split; [apply reach_opt_take; assumption|exact E].
    + exists s. split; [constructor|exact H].
Qed.

(** A match whose continuation succeeds gives a result. *)
Lemma reach_run r s s' :
  reach total r s s' ->
  forall k, is_Some (k s') -> is_Some (run total r k s).
Proof.
  induction 1 as [s|s Hs| |items c s Hc|r1 r2 s s1 s2 _ IH1 _ IH2
                  |r1 r2 s s' _ IH|r1 r2 s s' _ IH|g r s
                  |g r s s1 s2 _ IHr Hlt _ IHstar|r s|r s s' _ IH Hlt];
    intros k Hk; cbn [run].
  - exact Hk.
  - apply Nat.eqb_eq in Hs. rewrite Hs. exact Hk.
  - exact Hk.
  - rewrite Hc. exact Hk.
  - apply IH1, IH2, Hk.
  - destruct (IH k Hk) as [x Hx]. rewrite Hx. eauto.
  - destruct (run total r1 k s) as [x|]; [eauto|]. apply IH, Hk.
  - destruct s as [|c s]; [exact Hk|].
    cbn [length star_loop].
    destruct g.
    + destruct (run total r _ (c :: s)); [eauto|exact Hk].
    + destruct Hk as [x Hx]. rewrite Hx. eauto.
  - destruct s as [|c s]; [simpl in Hlt; lia|].
    cbn [length star_loop].
    assert (Hagain : is_Some (run total r
              (fun s' => if (length s' <? length (c :: s))%nat
                         then star_loop g (run total r) k (length s) s'
                         else None) (c :: s))).
    { apply IHr. apply Nat.ltb_lt in Hlt as Hlt'. rewrite Hlt'.
      replace (length s) with (length s1 + (length s - length s1))%nat
        by (simpl in Hlt; lia).
      rewrite star_loop_fuel. apply IHstar, Hk. }
    destruct g.
    + destruct Hagain as [x Hx]. cbn [length] in Hx. rewrite Hx. eauto.
    + destruct (k (c :: s)); [eauto|exact Hagain].
  - destruct (run total r _ s); [eauto|exact Hk].
  - assert (Htake : is_Some (run total r
              (fun s'' => if (length s'' <? length s)%nat then k s''
                          else None) s)).
    { apply IH. apply Nat.ltb_lt in Hlt. rewrite Hlt. exact Hk. }
    destruct Htake as [x Hx]. rewrite Hx. eauto.
Qed.
End Reach.

(** The matcher finds a match at a position exactly when the pattern
    matches there. *)
Lemma match_here_iff total r s :
  is_Some (match_here total r s) <-> exists rest, reach total r s rest.
Proof.
  unfold match_here. split.
  - intros [x Hx]. apply run_reach in Hx as (s' & H & _). eauto.
  - intros [rest H]. apply (reach_run total r s rest H). eauto.
Qed.

Lemma search_iff total r s :
  is_Some (search total r s) <->
  exists before s2 rest, s = before ++ s2 /\ reach total r s2 rest.
Proof.
  split.
  - intros [m Hm]. apply search_found in Hm as (s1 & s2 & rest & -> & H).
    destruct (proj1 (match_here_iff total r s2)) as [rest' Hr]; [eauto|].
    exists s1, s2, rest'. auto.
  - intros (before & s2 & rest & -> & H).
    assert (Hhere : is_Some (match_here total r s2))
      by (apply match_here_iff; eauto).
    induction before as [|c before IH]; cbn [app].
    + destruct Hhere as [x Hx].
      destruct s2; cbn [search]; rewrite Hx; eauto.
    + cbn [search].
      destruct (match_here total r (c :: before ++ s2)); [eauto|exact IH].
Qed.

(** * The chord pattern and the chord symbols *)

Ltac in_list := cbn; repeat (first [left; reflexivity | right]).

Ltac invert H := inversion H; subst; clear H.

Section ReachParts.
Variable total : nat.
Implicit Types (s : list char).

Lemma reach_suffix r s s' : reach total r s s' -> exists w, s = w ++ s'.
Proof.
  induction 1 as [s|s Hs| |items c s Hc|r1 r2 s s1 s2 _ IH1 _ IH2
                  |r1 r2 s s' _ IH|r1 r2 s s' _ IH|g r s
                  |g r s s1 s2 _ IHr Hlt _ IHstar|r s|r s s' _ IH Hlt].
  all: try (exists []; reflexivity).
  - exists [c]. reflexivity.
  - destruct IH1 as [w1 ->], IH2 as [w2 ->]. exists (w1 ++ w2).
    rewrite app_assoc. reflexivity.
  - exact IH.
  - exact IH.
  - destruct IHr as [w1 ->], IHstar as [w2 ->]. exists (w1 ++ w2).
    rewrite app_assoc. reflexivity.
  - exact IH.
Qed.

Lemma longer (w s' : list char) :
  w <> [] -> (length s' < length (w ++ s'))%nat.
Proof. destruct w; [congruence|]. rewrite length_app. simpl. lia. Qed.

Lemma reach_chars (l : list ascii) s s' :
  reach total (foldr (fun a r' => Seq (chr a) r') Eps l) s s'
  <-> s = map ch l ++ s'.
Proof.
  revert s. induction l as [|a l IH]; intros s; cbn [foldr map app].
  - split; [intros H; invert H; reflexivity|intros ->; constructor].
  - split.
    + intros H. invert H. unfold chr in *.
      match goal with H : reach _ (Cls _) _ _ |- _ => invert H end.
      match goal with H : cls_mem _ _ = true |- _ =>
        cbn [cls_mem existsb item_mem] in H; rewrite orb_false_r in H;
        apply N.eqb_eq in H; subst end.
      f_equal. apply IH. assumption.
    + intros ->. econstructor.
      * constructor. cbn [cls_mem existsb item_mem]. rewrite N.eqb_refl.
        reflexivity.
      * apply IH. reflexivity.
Qed.

Lemma reach_lit str s s' :
  reach total (lit str) s s' <-> s = codes str ++ s'.
Proof. apply reach_chars. Qed.

Lemma reach_chr a s s' : reach total (chr a) s s' <-> s = ch a :: s'.
Proof.
  unfold chr. split.
  - intros H. invert H. cbn [cls_mem existsb item_mem] in *.
    match goal with H : _ || false = true |- _ =>
      rewrite orb_false_r in H; apply N.eqb_eq in H; subst end.
    reflexivity.
  - intros ->. constructor. cbn [cls_mem existsb item_mem].
    rewrite N.eqb_refl. reflexivity.
Qed.

(** A star over a class: any run of members of the class. *)
Lemma reach_star_cls greedy items s s' :
  reach total (Star greedy (Cls items)) s s'
  <-> exists w, s = w ++ s' /\ forallb (cls_mem items) w = true.
Proof.
  split.
  - intros H. remember (Star greedy (Cls items)) as r eqn:Er.
    induction H as [| | | | | | |g r0 s
                    |g r0 s s1 s2 Hr _ Hlt _ IH| |]; try discriminate.
    + exists []. auto.
    + injection Er as -> ->. invert Hr.
      destruct (IH eq_refl) as (w & -> & Hw).
      exists (c :: w). split; [reflexivity|].
      cbn [forallb]. rewrite Hw. rewrite andb_true_r. assumption.
  - intros (w & -> & Hw). induction w as [|c w IH]; [constructor|].
    cbn [forallb] in Hw. apply andb_prop in Hw as [Hc Hw].
    apply (reach_star_more total greedy (Cls items) _ (w ++ s')).
    + constructor. exact Hc.
    + simpl. lia.
    + exact (IH Hw).
Qed.

Lemma digit_class c : cls_mem [CDigit] c = is_digit c.
Proof. cbn [cls_mem existsb item_mem]. apply orb_false_r. Qed.

Lemma reach_digits s s' :
  reach total digits s s' <-> exists d, s = d ++ s' /\ is_number d.
Proof.
  unfold digits, Plus, is_number. split.
  - intros H. invert H.
    match goal with H : reach _ (Cls _) _ _ |- _ => invert H end.
    match goal with H : reach _ (Star _ _) _ _ |- _ =>
      apply reach_star_cls in H as (w & -> & Hw) end.
    exists (c :: w). split; [reflexivity|]. split; [discriminate|].
    cbn [forallb]. rewrite <- digit_class.
    match goal with H : cls_mem _ c = true |- _ => rewrite H end.
    revert Hw. apply forallb_weaken. intros x. rewrite digit_class. auto.
  - intros (d & -> & Hne & Hd). destruct d as [|c d]; [congruence|].
    cbn [forallb] in Hd. apply andb_prop in Hd as [Hc Hd].
    econstructor.
    + constructor. rewrite digit_class. exact Hc.
    + apply reach_star_cls. exists d. split; [reflexivity|].
      revert Hd. apply forallb_weaken. intros x. rewrite digit_class. auto.
Qed.

Lemma reach_opt_iff r s s' :
  reach total (Opt r) s s'
  <-> s' = s \/ (reach total r s s' /\ (length s' < length s)%nat).
Proof.
  split.
  - intros H. invert H; auto.
  - intros [->|[H Hlt]]; [constructor|apply reach_opt_take; assumption].
Qed.

Lemma reach_seq_iff r1 r2 s s2 :
  reach total (r1 >> r2) s s2
  <-> exists s1, reach total r1 s s1 /\ reach total r2 s1 s2.
Proof.
  split.
  - intros H. invert H. eauto.
  - intros (s1 & H1 & H2). econstructor; eassumption.
Qed.

Lemma reach_alt_iff r1 r2 s s' :
  reach total (r1 <|> r2) s s'
  <-> reach total r1 s s' \/ reach total r2 s s'.
Proof.
  split.
  - intros H. invert H; auto.
  - intros [H|H]; [apply reach_alt_l|apply reach_alt_r]; exact H.
Qed.

Lemma reach_accidental s s' :
  reach total (Opt (Cls [CChar (ch "#"); CChar (ch "b")])) s s'
  <-> exists acc, s = acc ++ s' /\ In acc accidentals.
Proof.
  rewrite reach_opt_iff. split.
  - intros [->|[H _]].
    + exists []. split; [reflexivity|in_list].
    + invert H. cbn [cls_mem existsb item_mem] in *.
      match goal with H : _ || (_ || false) = true |- _ =>
        rewrite orb_false_r in H; apply orb_prop in H as [H|H];
        apply N.eqb_eq in H; subst end.
      * exists (codes "#"). split; [reflexivity|in_list].
      * exists (codes "b"). split; [reflexivity|in_list].
  - intros (acc & -> & Hacc). cbn in Hacc.
    destruct Hacc as [<-|[<-|[<-|[]]]]; [left; reflexivity| |];
      right; (split; [constructor; reflexivity|simpl; lia]).
Qed.

Lemma reach_note s s' :
  reach total note s s'
  <-> exists letter acc,
        s = letter :: acc ++ s'
        /\ is_note_letter letter = true /\ In acc accidentals.
Proof.
  unfold note. rewrite reach_seq_iff. split.
  - intros (s1 & H1 & H2). invert H1.
    apply reach_accidental in H2 as (acc & -> & Hacc).
    exists c, acc. split; [reflexivity|]. split; [|exact Hacc].
    match goal with H : cls_mem _ c = true |- _ =>
      cbn [cls_mem existsb item_mem] in H; rewrite orb_false_r in H;
      exact H end.
  - intros (letter & acc & -> & Hl & Hacc). exists (acc ++ s'). split.
    + constructor. cbn [cls_mem existsb item_mem]. rewrite orb_false_r.
      exact Hl.
    + apply reach_accidental. eauto.
Qed.

(** A word of a quality, with or without the seven. *)
Lemma reach_word_seven word s s' :
  reach total (lit word >> Opt (chr "7")) s s'
  <-> s = codes word ++ s' \/ s = codes word ++ ch "7" :: s'.
Proof.
  rewrite reach_seq_iff. split.
  - intros (s1 & H1 & H2). apply reach_lit in H1 as ->.
    apply reach_opt_iff in H2 as [->|[H2 _]]; [left; reflexivity|].
    apply reach_chr in H2 as ->. right. reflexivity.
  - intros [->| ->].
    + exists s'. split; [apply reach_lit; reflexivity|constructor].
    + exists (ch "7" :: s'). split; [apply reach_lit; reflexivity|].
      apply reach_opt_take; [apply reach_chr; reflexivity|simpl; lia].
Qed.

Lemma reach_quality s s' :
  reach total (Opt quality) s s'
  <-> exists qual, s = qual ++ s' /\ In qual qualities.
Proof.
  rewrite reach_opt_iff. unfold quality.
  rewrite !reach_alt_iff, !reach_word_seven. split.
  - intros [->|[H _]].
    + exists []. split; [reflexivity|in_list].
    + repeat destruct H as [H|H]; subst s.
      * exists (codes "maj"). split; [reflexivity|in_list].
      * exists (codes "maj7"). split; [reflexivity|in_list].
      * exists (codes "M"). split; [reflexivity|in_list].
      * exists (codes "M7"). split; [reflexivity|in_list].
      * exists (codes "min"). split; [reflexivity|in_list].
      * exists (codes "min7"). split; [reflexivity|in_list].
      * exists (codes "m"). split; [reflexivity|in_list].
      * exists (codes "m7"). split; [reflexivity|in_list].
      * exists (codes "dim"). split; [reflexivity|in_list].
      * exists (codes "dim7"). split; [reflexivity|in_list].
      * exists (codes "aug"). split; [reflexivity|in_list].
      * exists (codes "aug7"). split; [reflexivity|in_list].
  - intros (qual & -> & Hq). cbn in Hq.
    destruct Hq as [<-|Hq]; [left; reflexivity|]. right.
    repeat destruct Hq as [<-|Hq]; try contradiction;
      (split; [|simpl; lia]); cbn; tauto.
Qed.
Lemma reach_word_number word s s' :
  reach total (lit word >> digits) s s'
  <-> exists d, s = codes word ++ d ++ s' /\ is_number d.
Proof.
  rewrite reach_seq_iff. split.
  - intros (s1 & H1 & H2). apply reach_lit in H1 as ->.
    apply reach_digits in H2 as (d & -> & Hd). eauto.
  - intros (d & -> & Hd). exists (d ++ s'). split.
    + apply reach_lit. reflexivity.
    + apply reach_digits. eauto.
Qed.

Lemma reach_modifier s s' :
  reach total modifier s s' <-> exists m, s = m ++ s' /\ is_modifier m.
Proof.
  unfold modifier, is_modifier.
  rewrite !reach_alt_iff, !reach_word_number. split.
  - intros H.
    repeat destruct H as [H|H]; destruct H as (d & -> & Hd).
    + exists (codes "sus" ++ d). rewrite <- app_assoc.
      split; [reflexivity|]. exists (codes "sus"), d.
      split; [reflexivity|]. split; [in_list|exact Hd].
    + exists (codes "add" ++ d). rewrite <- app_assoc.
      split; [reflexivity|]. exists (codes "add"), d.
      split; [reflexivity|]. split; [in_list|exact Hd].
    + exists (codes "b" ++ d). rewrite <- app_assoc.
      split; [reflexivity|]. exists (codes "b"), d.
      split; [reflexivity|]. split; [in_list|exact Hd].
    + exists (codes "#" ++ d). rewrite <- app_assoc.
      split; [reflexivity|]. exists (codes "#"), d.
      split; [reflexivity|]. split; [in_list|exact Hd].
  - intros (m & -> & word & d & -> & Hword & Hd).
    rewrite <- app_assoc. cbn in Hword.
    destruct Hword as [<-|[<-|[<-|[<-|[]]]]]; eauto 6.
Qed.

Lemma modifier_not_empty m : is_modifier m -> m <> [].
Proof.
  intros (word & d & -> & _ & Hne & _) H.
  apply app_eq_nil in H as [_ H]. contradiction.
Qed.

Lemma reach_modifiers s s' :
  reach total (Star true modifier) s s'
  <-> exists mods, s = concat mods ++ s' /\ Forall is_modifier mods.
Proof.
  split.
  - intros H. remember (Star true modifier) as r eqn:Er.
    induction H as [| | | | | | |g r0 s
                    |g r0 s s1 s2 Hr _ Hlt _ IH| |]; try discriminate.
    + exists []. auto.
    + injection Er as -> ->.
      apply reach_modifier in Hr as (m & -> & Hm).
      destruct (IH eq_refl) as (mods & -> & Hmods).
      exists (m :: mods). cbn [concat]. rewrite <- app_assoc. auto.
  - intros (mods & -> & Hmods).
    induction Hmods as [|m mods Hm _ IH]; [constructor|].
    cbn [concat]. rewrite <- app_assoc.
    apply (reach_star_more total true modifier _ (concat mods ++ s')).
    + apply reach_modifier. eauto.
    + apply longer, modifier_not_empty, Hm.
    + exact IH.
Qed.

Lemma reach_opt_modifiers s s' :
  reach total (Opt (Star true modifier)) s s'
  <-> exists mods, s = concat mods ++ s' /\ Forall is_modifier mods.
Proof.
  rewrite reach_opt_iff, reach_modifiers. split.
  - intros [->|[H _]]; [exists []; auto|exact H].
  - intros (mods & -> & Hmods). destruct mods as [|m mods].
    + left. reflexivity.
    + right. split; [eauto|].
      apply longer. cbn [concat]. inversion Hmods; subst.
      intros H. apply app_eq_nil in H as [H _].
      eapply modifier_not_empty; eassumption.
Qed.

Lemma reach_opt_digits s s' :
  reach total (Opt digits) s s'
  <-> exists ext, s = ext ++ s' /\ forallb is_digit ext = true.
Proof.
  rewrite reach_opt_iff, reach_digits. split.
  - intros [->|[(d & -> & _ & Hd) _]]; [exists []; auto|eauto].
  - intros (ext & -> & Hext). destruct ext as [|c ext].
    + left. reflexivity.
    + right. split; [|apply longer; discriminate].
      exists (c :: ext). split; [reflexivity|]. split; [discriminate|].
      exact Hext.
Qed.

Lemma reach_bass s s' :
  reach total (Opt (chr "/" >> note)) s s'
  <-> exists b, s = b ++ s' /\ is_bass b.
Proof.
  rewrite reach_opt_iff, reach_seq_iff. unfold is_bass. split.
  - intros [->|[(s1 & H1 & H2) _]].
    + exists []. auto.
    + apply reach_chr in H1 as ->.
      apply reach_note in H2 as (letter & acc & -> & Hl & Hacc).
      exists (ch "/" :: letter :: acc). split; [reflexivity|].
      right. eauto.
  - intros (b & -> & [->|(letter & acc & -> & Hl & Hacc)]).
    + left. reflexivity.
    + right. split; [|apply (longer (ch "/" :: letter :: acc)); discriminate].
      exists (letter :: acc ++ s'). split.
      * apply reach_chr. reflexivity.
      * apply reach_note. eauto.
Qed.

Lemma reach_chord_body s s' :
  reach total CHORD_BODY s s'
  <-> exists letter acc qual ext mods bass,
        s = letter :: acc ++ qual ++ ext ++ concat mods ++ bass ++ s'
        /\ is_note_letter letter = true
        /\ In acc accidentals
        /\ In qual qualities
        /\ forallb is_digit ext = true
        /\ Forall is_modifier mods
        /\ is_bass bass.
Proof.
  unfold CHORD_BODY. split.
  - intros H.
    apply reach_seq_iff in H as (s1 & H1 & H).
    apply reach_seq_iff in H as (s2 & H2 & H).
    apply reach_seq_iff in H as (s3 & H3 & H).
    apply reach_seq_iff in H as (s4 & H4 & H5).
    apply reach_note in H1 as (letter & acc & -> & Hl & Hacc).
    apply reach_quality in H2 as (qual & -> & Hq).
    apply reach_opt_digits in H3 as (ext & -> & Hext).
    apply reach_opt_modifiers in H4 as (mods & -> & Hmods).
    apply reach_bass in H5 as (bass & -> & Hbass).
    exists letter, acc, qual, ext, mods, bass. auto 10.
  - intros (letter & acc & qual & ext & mods & bass & -> & Hl & Hacc & Hq
            & Hext & Hmods & Hbass).
    apply reach_seq_iff. exists (qual ++ ext ++ concat mods ++ bass ++ s').
    split; [apply reach_note; eauto|].
    apply reach_seq_iff. exists (ext ++ concat mods ++ bass ++ s').
    split; [apply reach_quality; eauto|].
    apply reach_seq_iff. exists (concat mods ++ bass ++ s').
    split; [apply reach_opt_digits; eauto|].
    apply reach_seq_iff. exists (bass ++ s').
    split; [apply reach_opt_modifiers; eauto|].
    apply reach_bass. eauto.
Qed.
End ReachParts.

(** X19: The symbols that conform to the chord pattern are the chord symbols:
    the letter of a note, then optionally an accidental, one of the twelve
    qualities, digits, any number of modifiers and a slash with a bass
    note, in this order and with nothing else. *)
Theorem conforms_iff_chord_symbol (chord : list char) :
  conforms chord = true <-> chord_symbol chord.
Proof.
  unfold chord_symbol. split.
  - intros H. apply conforms_here in H.
    apply run_reach in H as (s' & H & Hs').
    destruct s'; [|discriminate].
    apply reach_chord_body in H
      as (letter & acc & qual & ext & mods & bass & -> & H).
    exists letter, acc, qual, ext, mods, bass.
    rewrite app_nil_r. auto.
  - intros (letter & acc & qual & ext & mods & bass & Hc & H).
    assert (Hbody : reach (length chord) CHORD_BODY chord []).
    { apply reach_chord_body.
      exists letter, acc, qual, ext, mods, bass. rewrite app_nil_r. auto. }
    assert (Hpat : reach (length chord) CHORD_PATTERN chord []).
    { clear -Hbody. unfold CHORD_PATTERN, CHORD_BODY in *.
      apply reach_seq_iff in Hbody as (s1 & H1 & H).
      apply reach_seq_iff in H as (s2 & H2 & H).
      apply reach_seq_iff in H as (s3 & H3 & H).
      apply reach_seq_iff in H as (s4 & H4 & H5).
      apply (reach_seq _ _ _ chord chord); [constructor; reflexivity|].
      apply (reach_seq _ _ _ _ s1); [exact H1|].
      apply (reach_seq _ _ _ _ s2); [exact H2|].
      apply (reach_seq _ _ _ _ s3); [exact H3|].
      apply (reach_seq _ _ _ _ s4); [exact H4|].
      apply (reach_seq _ _ _ _ []); [exact H5|constructor]. }
    unfold conforms, regex_match.
    destruct (proj2 (search_iff (length chord) CHORD_PATTERN chord))
      as [m Hm]; [|rewrite Hm; reflexivity].
    exists [], chord, []. auto.
Qed.

(** * The format error *)

Lemma reach_ws total s s' :
  reach total ws s s' <-> exists w, s = w ++ s' /\ spaces w = true.
Proof.
  unfold ws, spaces. rewrite reach_star_cls. split.
  - intros (w & -> & Hw). exists w. split; [reflexivity|].
    revert Hw. apply forallb_weaken. intros c.
    cbn [cls_mem existsb item_mem]. rewrite orb_false_r. auto.
  - intros (w & -> & Hw). exists w. split; [reflexivity|].
    revert Hw. apply forallb_weaken. intros c.
    cbn [cls_mem existsb item_mem]. rewrite orb_false_r. auto.
Qed.

Lemma reach_any total s s' :
  reach total (Star false (Cls [CSpace; CNonSpace])) s s'
  <-> exists body, s = body ++ s'.
Proof.
  rewrite reach_star_cls. split.
  - intros (w & -> & _). eauto.
  - intros (w & ->). exists w. split; [reflexivity|].
    apply forallb_forall. intros c _.
    cbn [cls_mem existsb item_mem]. destruct (is_space c); reflexivity.
Qed.

Lemma reach_quote total r s s' :
  reach total (Cls [CChar 34] >> r) s s'
  <-> exists s1, s = 34 :: s1 /\ reach total r s1 s'.
Proof.
  rewrite reach_seq_iff. split.
  - intros (s1 & H1 & H2). invert H1.
    match goal with H : cls_mem _ _ = true |- _ =>
      cbn [cls_mem existsb item_mem] in H; rewrite orb_false_r in H;
      apply N.eqb_eq in H; subst end.
    eauto.
  - intros (s1 & -> & H). exists s1. split; [|exact H].
    constructor. reflexivity.
Qed.

(** What the response pattern matches at a position. *)
Lemma reach_response total s rest :
  reach total RESPONSE_PATTERN s rest
  <-> exists w1 w2 w3 body w4,
        s = ch "{" :: w1
            ++ quoted (codes "chordSuggestions")
                 (w2 ++ ch ":" :: w3 ++ ch "[" :: body
                  ++ ch "]" :: w4 ++ ch "}" :: rest)
        /\ spaces w1 = true /\ spaces w2 = true /\ spaces w3 = true
        /\ spaces w4 = true.
Proof.
  unfold RESPONSE_PATTERN, OPENING, CLOSING, quoted. split.
  - intros H.
    apply reach_seq_iff in H as (s1 & H & Hrest).
    apply reach_seq_iff in H as (t1 & H1 & H).
    apply reach_chr in H1 as ->.
    apply reach_seq_iff in H as (t2 & H2 & H).
    apply reach_ws in H2 as (w1 & -> & Hw1).
    apply reach_quote in H as (t3 & -> & H).
    apply reach_seq_iff in H as (t4 & H4 & H).
    apply reach_lit in H4 as ->.
    apply reach_quote in H as (t5 & -> & H).
    apply reach_seq_iff in H as (t6 & H6 & H).
    apply reach_ws in H6 as (w2 & -> & Hw2).
    apply reach_seq_iff in H as (t7 & H7 & H).
    apply reach_chr in H7 as ->.
    apply reach_seq_iff in H as (t8 & H8 & H).
    apply reach_ws in H8 as (w3 & -> & Hw3).
    apply reach_chr in H as ->.
    apply reach_seq_iff in Hrest as (u1 & Hany & H).
    apply reach_any in Hany as (body & ->).
    apply reach_seq_iff in H as (u2 & H2 & H).
    apply reach_chr in H2 as ->.
    apply reach_seq_iff in H as (u3 & H3 & H).
    apply reach_ws in H3 as (w4 & -> & Hw4).
    apply reach_chr in H as ->.
    exists w1, w2, w3, body, w4. auto.
  - intros (w1 & w2 & w3 & body & w4 & -> & Hw1 & Hw2 & Hw3 & Hw4).
    apply reach_seq_iff.
    exists (body ++ ch "]" :: w4 ++ ch "}" :: rest). split.
    + apply reach_seq_iff. eexists. split; [apply reach_chr; reflexivity|].
      apply reach_seq_iff. eexists. split; [apply reach_ws; eauto|].
      apply reach_quote. eexists. split; [reflexivity|].
      apply reach_seq_iff. eexists. split; [apply reach_lit; reflexivity|].
      apply reach_quote. eexists. split; [reflexivity|].
      apply reach_seq_iff. eexists. split; [apply reach_ws; eauto|].
      apply reach_seq_iff. eexists. split; [apply reach_chr; reflexivity|].
      apply reach_seq_iff. eexists. split; [apply reach_ws; eauto|].
      apply reach_chr. reflexivity.
    + apply reach_seq_iff. eexists. split; [apply reach_any; eauto|].
      apply reach_seq_iff. eexists. split; [apply reach_chr; reflexivity|].
      apply reach_seq_iff. eexists. split; [apply reach_ws; eauto|].
      apply reach_chr. reflexivity.
Qed.

Lemma check_chords_no_format_error l :
  check_chords l <> Throws InvalidFormat.
Proof.
  induction l as [|j l IH]; cbn [check_chords]; [discriminate|].
  destruct j; try discriminate.
  destruct (regex_match CHORD_PATTERN s); [exact IH|discriminate].
Qed.

Lemma format_error_no_match text :
  parseChordSuggestions text = Throws InvalidFormat
  <-> regex_match RESPONSE_PATTERN text = None.
Proof.
  unfold parseChordSuggestions. split.
  - destruct (regex_match RESPONSE_PATTERN text) as [m0|]; [|reflexivity].
    destruct (JSON_parse m0) as [parsed|]; [|discriminate].
    destruct (get_chordSuggestions parsed) as [w|e] eqn:Ew.
    + destruct (get_length w) as [len|e] eqn:El.
      * destruct (differs_from_NUM_SUGGESTIONS len); [discriminate|].
        destruct (iterate w) as [l|e] eqn:Ei.
        -- pose proof (check_chords_no_format_error l).
           destruct (check_chords l); [discriminate|congruence].
        -- destruct w as [|n|[]]; cbn in Ei; congruence.
      * destruct w as [|n|[]]; cbn in El; congruence.
    + destruct parsed; cbn in Ew; congruence.
  - intros ->. reflexivity.
Qed.

(** X13: The format error is thrown exactly for the responses that hold no part
    of the shape that the pattern asks for. *)
Theorem format_error_iff (text : list char) :
  parseChordSuggestions text = Throws InvalidFormat
  <-> ~ has_response_shape text.
Proof.
  rewrite format_error_no_match. unfold regex_match, has_response_shape.
  split.
  - intros Hnone (before & w1 & w2 & w3 & body & w4 & after & Htext & Hw).
    destruct (proj2 (search_iff (length text) RESPONSE_PATTERN text))
      as [m Hm]; [|congruence].
    eexists before, _, after. split; [exact Htext|].
    apply reach_response. exists w1, w2, w3, body, w4. auto.
  - intros Hno.
    destruct (search (length text) RESPONSE_PATTERN text) as [m|] eqn:E;
      [|reflexivity].
    exfalso. apply Hno.
    destruct (proj1 (search_iff (length text) RESPONSE_PATTERN text))
      as (before & s2 & rest & -> & H); [eauto|].
    apply reach_response in H as (w1 & w2 & w3 & body & w4 & -> & Hw).
    exists before, w1, w2, w3, body, w4, rest. auto.
Qed.

(** * Elements that are no strings, and the key *)

Lemma check_chords_first_other good j others :
  forallb conforms good = true ->
  (forall chord, j <> JStr chord) ->
  check_chords (map JStr good ++ j :: others) = Throws TypeError.
Proof.
  intros Hgood Hj. induction good as [|c cs IH].
  - cbn [map app check_chords]. destruct j; try reflexivity.
    exfalso. eapply Hj. reflexivity.
  - cbn [forallb] in Hgood. apply andb_prop in Hgood as [Hc Hcs].
    cbn [map app check_chords]. unfold conforms in Hc.
    destruct (regex_match CHORD_PATTERN c); [|discriminate]. exact (IH Hcs).
Qed.

(** X17: When the array extracted from the response has twelve elements and the
    first element that is no conforming string is no string at all (a
    number, [null], an array, ...), validation ends with a [TypeError] of
    the runtime, not with an error that cites the element. *)
Theorem non_string_element_type_error (text m0 : list char) (parsed : json)
    (good : list (list char)) (j : json) (others : list json) :
  regex_match RESPONSE_PATTERN text = Some m0 ->
  JSON_parse m0 = Some parsed ->
  get_chordSuggestions parsed
  = Returns (VJson (JArr (map JStr good ++ j :: others))) ->
  length (map JStr good ++ j :: others) = NUM_SUGGESTIONS ->
  forallb conforms good = true ->
  (forall chord, j <> JStr chord) ->
  parseChordSuggestions text = Throws TypeError.
Proof.
  intros Hm Hp Hc Hlen Hgood Hj.
  rewrite (parse_extracted text m0 parsed _ Hm Hp Hc).
  rewrite Hlen, Nat.eqb_refl.
  rewrite (check_chords_first_other good j others Hgood Hj). reflexivity.
Qed.

Lemma non_string_element_type_error_witness :
  parseChordSuggestions null_in_second_place = Throws TypeError.
Proof.
  apply (non_string_element_type_error null_in_second_place
           null_in_second_place
           (JObj [(codes "chordSuggestions",
                   JArr (JStr (codes "C") :: JNull
                         :: map JStr (map codes
                              ["D"; "E"; "F"; "G"; "A"; "B"; "C"; "D"; "E";
                               "F"]%string)))])
           [codes "C"] JNull
           (map JStr (map codes
              ["D"; "E"; "F"; "G"; "A"; "B"; "C"; "D"; "E"; "F"]%string))).
  - vm_compute. reflexivity.
  - vm_compute. reflexivity.
  - vm_compute. reflexivity.
  - reflexivity.
  - vm_compute. reflexivity.
  - discriminate.
Defined.

